(** * SSD Health Monitor: a shallow embedding of [ssdhealthmonitor.py]

    The development follows the Python source top to bottom.

    - [Py] holds the few pieces of the Python runtime the monitor relies on:
      exceptions and outcomes, binary64 floats (through the standard
      library's [spec_float]), the string operations [endswith], [lower],
      [in], [ord], [chr], insertion-ordered dictionaries and JSON documents.
    - [Store] is the object store: the monitor's [alerts] list is one list
      object, shared between the monitor and every report built from it.
    - [psutil], [subprocess] and [world] describe what the operating system
      answers during one run.
    - [SSDHealthMonitor] and its methods are transcribed from the class of
      the same name.

    Console output ([print]) is not modelled. *)

From Stdlib Require Import ZArith QArith Qpower String Ascii List Lia Lqa.
From Stdlib Require Import Floats.SpecFloat.
From stdpp Require Import base list strings.
Import ListNotations.
Open Scope Z_scope.

(** ** The Python runtime *)

Module Py.

(** Exception classes that appear in the source or can be raised by the
    operations it performs.  All of them derive from [Exception];
    [PermissionError] and [FileNotFoundError] derive from [OSError]. *)
Inductive exn :=
| OSError
| PermissionError
| FileNotFoundError
| TimeoutExpired
| JSONDecodeError
| ZeroDivisionError
| TypeError
| KeyError
| IndexError
| AttributeError
| ValueError
| SMTPException.

#[global] Instance exn_eq_dec : EqDecision exn.
Proof. solve_decision. Defined.

(** What evaluating an expression or calling a function ends in. *)
Inductive outcome (A : Type) :=
| Returned (a : A)
| Raised (e : exn).
Arguments Returned {A} a.
Arguments Raised {A} e.

Definition raises {A} (o : outcome A) : bool :=
  match o with Returned _ => false | Raised _ => true end.

(** *** Floats

    A Python [float] is an IEEE 754 binary64 number. *)
Definition prec : Z := 53.
Definition emax : Z := 1024.

Definition float := spec_float.

(** [float(n)] for an [int]; exact when [|n| <= 2^53]. *)
Definition float_of_int (n : Z) : float := binary_normalize prec emax n 0 false.

Definition fmul (x y : float) : float := SFmul prec emax x y.

(** An [int] as the operand of a correctly rounded operation: the integer
    itself, with exponent zero and no rounding. *)
Definition exact (n : Z) : float :=
  match n with
  | Z0 => S754_zero false
  | Zpos p => S754_finite false p 0
  | Zneg p => S754_finite true p 0
  end.

(** [a / b] on two [int]s.  Python raises on a zero divisor and otherwise
    returns the float closest to the quotient of the two integers (it does
    not convert the operands to floats first). *)
Definition truediv (a b : Z) : outcome float :=
  if b =? 0 then Raised ZeroDivisionError
  else Returned (SFdiv prec emax (exact a) (exact b)).

(** The signed significand of a finite float. *)
Definition significand (s : bool) (m : positive) : Z := cond_Zopp s (Z.pos m).

(** [x > n] for a float [x] and an int [n].  Python compares the two
    exactly, without converting [n] to a float. *)
Definition float_gt_int (x : float) (n : Z) : bool :=
  match x with
  | S754_nan => false
  | S754_infinity s => negb s
  | S754_zero _ => n <? 0
  | S754_finite s m e =>
      if 0 <=? e then n <? significand s m * 2 ^ e
      else n * 2 ^ (- e) <? significand s m
  end.

(** The real number a finite float stands for. *)
Definition float_value (x : float) : option Q :=
  match x with
  | S754_zero _ => Some 0%Q
  | S754_finite s m e => Some (inject_Z (significand s m) * (2 ^ e))%Q
  | S754_infinity _ | S754_nan => None
  end.

(** Mathematical meaning of "the reading [x] is strictly greater than [n]":
    the order of the reals, extended to the infinities; a NaN is not
    greater than anything. *)
Definition exceeds (x : float) (n : Z) : Prop :=
  match x with
  | S754_nan => False
  | S754_infinity s => s = false
  | _ => exists q, float_value x = Some q /\ (inject_Z n < q)%Q
  end.


(** [n / d] rounded to the nearest integer, ties to the even one ([0 < d]). *)
Definition div_half_even (n d : Z) : Z :=
  let q := n / d in
  let r := n mod d in
  match 2 * r ?= d with
  | Lt => q
  | Gt => q + 1
  | Eq => if Z.even q then q else q + 1
  end.

(** The float closest to the decimal [c * 10^-ndigits]; [s] is the sign
    given to a zero. *)
Definition nearest_decimal (s : bool) (c : Z) (ndigits : Z) : float :=
  match c with
  | Z0 => S754_zero s
  | _ => SFdiv prec emax (exact c) (exact (10 ^ ndigits))
  end.

(** [round(x, ndigits)] with [0 <= ndigits]: Python rounds the exact value
    of [x] to the nearest multiple of [10^-ndigits], ties to even, and
    returns the float closest to that decimal.  Infinities, NaN, zeros and
    integral floats are returned as they are. *)
Definition round (x : float) (ndigits : Z) : float :=
  match x with
  | S754_finite s m e =>
      if 0 <=? e then x
      else nearest_decimal s
             (div_half_even (significand s m * 10 ^ ndigits) (2 ^ (- e)))
             ndigits
  | _ => x
  end.

(** *** Strings

    The strings the monitor is given are held as [string]s of code points
    below 256, one per character; device names, mount points and sensor
    names are such.  [chr] can leave this range, so a string built from its
    result is a [text]: a Python string in general, as the list of its code
    points. *)
Definition ord (c : ascii) : Z := Z.of_N (N_of_ascii c).

(** The character with code [n], for [0 <= n < 256]. *)
Definition latin1 (n : Z) : ascii := ascii_of_N (Z.to_N n).

(** A Python string in general: the list of its code points. *)
Definition text : Type := list Z.

Bind Scope string_scope with text.

(** The code points of a string. *)
Fixpoint text_of (s : string) : text :=
  match s with
  | EmptyString => []
  | String c s' => ord c :: text_of s'
  end.

Coercion text_of : string >-> text.

(** [chr(n)]: the string of the one character with code [n]; Python raises
    [ValueError] outside of [range(0x110000)]. *)
Definition chr (n : Z) : outcome text :=
  if (0 <=? n) && (n <? 1114112) then Returned [n] else Raised ValueError.

(** [s[0]] *)
Definition first_char (s : string) : outcome ascii :=
  match s with
  | EmptyString => Raised IndexError
  | String c _ => Returned c
  end.

(** [s.endswith(suffix)] *)
Fixpoint endswith (s suffix : string) : bool :=
  if String.eqb s suffix then true
  else match s with
       | EmptyString => false
       | String _ s' => endswith s' suffix
       end.

(** [sub in s] on two strings *)
Fixpoint contains (s sub : string) : bool :=
  if String.prefix sub s then true
  else match s with
       | EmptyString => false
       | String _ s' => contains s' sub
       end.

(** [str.lower] on one character: the upper-case letters [A-Z] and the
    upper-case letters of the Latin-1 block move up by 32. *)
Definition lower_char (c : ascii) : ascii :=
  let n := ord c in
  if ((65 <=? n) && (n <=? 90)) || ((192 <=? n) && (n <=? 222) && negb (n =? 215))
  then latin1 (n + 32) else c.

Fixpoint lower (s : string) : string :=
  match s with
  | EmptyString => EmptyString
  | String c s' => String (lower_char c) (lower s')
  end.

(** *** Dictionaries

    A [dict] keeps its keys in insertion order; assigning to a key that is
    already present replaces the value and leaves the position alone. *)
Definition dict (V : Type) := list (string * V).

Fixpoint dict_set {V} (k : string) (v : V) (d : dict V) : dict V :=
  match d with
  | [] => [(k, v)]
  | (k', v') :: d' =>
      if String.eqb k k' then (k, v) :: d' else (k', v') :: dict_set k v d'
  end.

Fixpoint dict_get {V} (k : string) (d : dict V) : option V :=
  match d with
  | [] => None
  | (k', v) :: d' => if String.eqb k k' then Some v else dict_get k d'
  end.

Definition keys {V} (d : dict V) : list string := map fst d.

(** *** JSON documents, as [json.loads] builds them *)
#[warnings="-register-all"]
Inductive json :=
| JNull
| JBool (b : bool)
| JInt (n : Z)
| JFloat (x : float)
| JStr (s : string)
| JList (l : list json)
| JDict (d : list (string * json)).

Definition is_str (k : string) (j : json) : bool :=
  match j with JStr s => String.eqb s k | _ => false end.

(** [k in j] for a string [k] *)
Definition json_in (k : string) (j : json) : outcome bool :=
  match j with
  | JDict d => Returned (bool_decide (is_Some (dict_get k d)))
  | JList l => Returned (existsb (is_str k) l)
  | JStr s => Returned (contains s k)
  | JNull | JBool _ | JInt _ | JFloat _ => Raised TypeError
  end.

(** [j[k]] for a string [k] *)
Definition json_getitem (j : json) (k : string) : outcome json :=
  match j with
  | JDict d => match dict_get k d with
               | Some v => Returned v
               | None => Raised KeyError
               end
  | _ => Raised TypeError
  end.

(** Truth value of a JSON value in an [if]. *)
Definition truthy (j : json) : bool :=
  match j with
  | JNull => false
  | JBool b => b
  | JInt n => negb (n =? 0)
  | JFloat (S754_zero _) => false
  | JFloat _ => true
  | JStr s => negb (String.eqb s "")
  | JList l => match l with [] => false | _ => true end
  | JDict d => match d with [] => false | _ => true end
  end.

End Py.
Export Py.

(** ** The object store

    Lists are objects: [self.alerts] is created once by [__init__] and every
    later [append] mutates that one object.  The store maps a location to the
    current contents of the list that lives there. *)

Module Store.

(** A location is an index into the store; the store holds the contents
    of every list object. *)
Abbreviation loc := nat.
Abbreviation store A := (list (list A)).

(** Contents of the list at [l]. *)
Definition read {A} (h : store A) (l : loc) : list A := h !!! l.

(** [[]]: a new, empty list object. *)
Definition alloc {A} (h : store A) : loc * store A := (length h, h ++ [[]]).

(** [l.append(a)] *)
Definition append {A} (h : store A) (l : loc) (a : A) : store A :=
  <[l := read h l ++ [a]]> h.

(** [l] is a list object of [h]. *)
Definition allocated {A} (h : store A) (l : loc) : Prop := (l < length h)%nat.

End Store.
Import Store.

(** ** The operating system, as seen during one run *)

Module psutil.
(** An entry of [psutil.disk_partitions()]. *)
Record sdiskpart := { device : string; mountpoint : string }.
(** The result of [psutil.disk_usage(path)], in bytes. *)
Record sdiskusage := { total : Z; used : Z; free : Z }.
(** One reading of [psutil.sensors_temperatures()]. *)
Record shwtemp := { label : string; current : float }.
End psutil.

Module subprocess.
(** The result of [subprocess.run(..., capture_output=True, text=True)]. *)
Record CompletedProcess := { returncode : Z; stdout : string }.
End subprocess.

(** ** Alerts

    An alert is one of three f-strings of the source; it is kept with the
    values interpolated into it.
    - [UsageAlert device percent_used usage_threshold]:
      ["{device} is {percent_used:.1f}% full (threshold: {usage_threshold}%)"]
    - [TemperatureAlert sensor_name temp temp_threshold]:
      ["{sensor_name} temperature: {temp}C (threshold: {temp_threshold}C)"]
    - [SmartAlert drive_path]:
      ["{drive_path}: SMART status FAILED - Drive may be failing!"] *)
Inductive alert :=
| UsageAlert (device : string) (percent_used : float) (usage_threshold : Z)
| TemperatureAlert (sensor_name : string) (temp : float) (temp_threshold : Z)
| SmartAlert (drive_path : text).

Inductive category := Usage | Temperature | Smart.

Definition category_of (a : alert) : category :=
  match a with
  | UsageAlert _ _ _ => Usage
  | TemperatureAlert _ _ _ => Temperature
  | SmartAlert _ => Smart
  end.

#[global] Instance category_eq_dec : EqDecision category.
Proof. solve_decision. Defined.

(** The answers of the libraries the monitor calls. *)
Record world := {
  (** [psutil.disk_partitions()] *)
  psutil_disk_partitions : list psutil.sdiskpart;
  (** [psutil.disk_usage(mountpoint)] *)
  psutil_disk_usage : string -> outcome psutil.sdiskusage;
  (** [psutil.sensors_temperatures()]: sensor groups by name, in order *)
  psutil_sensors_temperatures : outcome (dict (list psutil.shwtemp));
  (** [subprocess.run(args, capture_output=True, text=True, timeout=30)] *)
  subprocess_run : list text -> outcome subprocess.CompletedProcess;
  (** [json.loads(text)] *)
  json_loads : string -> outcome json;
  (** [datetime.now().isoformat()] *)
  datetime_now_isoformat : string;
  (** building the message and handing it to [smtplib.SMTP] *)
  smtp_send_message : string -> Z -> string -> string -> string -> list alert -> outcome unit
}.

(** ** Computations: a store of alert lists, and exceptions *)

Definition M (A : Type) : Type := store alert -> outcome A * store alert.

Definition ret {A} (a : A) : M A := fun h => (Returned a, h).

Definition raise {A} (e : exn) : M A := fun h => (Raised e, h).

Definition bind {A B} (m : M A) (k : A -> M B) : M B :=
  fun h => match m h with
           | (Returned a, h') => k a h'
           | (Raised e, h') => (Raised e, h')
           end.

(** The outcome of a call that does not touch the store. *)
Definition lift {A} (o : outcome A) : M A := fun h => (o, h).

Declare Scope py_scope.
Delimit Scope py_scope with py.
Notation "'let!' x ':=' m 'in' k" := (bind m (fun x => k))
  (at level 10, x pattern, m at level 100, k at level 200) : py_scope.
Notation "m ';;' k" := (bind m (fun _ => k))
  (at level 100, k at level 200, right associativity) : py_scope.
Open Scope py_scope.

(** [try: body except ...: handler]; [handler e = None] when no clause
    matches [e].  What [body] wrote to the store before raising stays. *)
Definition try_except {A} (body : M A) (handler : exn -> option (M A)) : M A :=
  fun h => match body h with
           | (Raised e, h') =>
               match handler e with
               | Some k => k h'
               | None => (Raised e, h')
               end
           | r => r
           end.

(** [for x in l: acc = body(x, acc)] *)
Fixpoint for_ {A S} (l : list A) (body : A -> S -> M S) (acc : S) : M S :=
  match l with
  | [] => ret acc
  | x :: l' => let! acc' := body x acc in for_ l' body acc'
  end.

(** ** The monitor *)

(** An instance of [SSDHealthMonitor]: its three attributes.  None of them
    is ever reassigned after [__init__]; [alerts] names the list object. *)
Record SSDHealthMonitor := {
  temp_threshold : Z;
  usage_threshold : Z;
  alerts : loc
}.

(** A value of the [disk_usage] dictionary. *)
Record VolumeReading := {
  mountpoint : string;
  total_gb : float;
  used_gb : float;
  free_gb : float;
  percent_used : float
}.

(** The dictionary returned by [run_full_check]. *)
Module HealthReport.
Record t := {
  timestamp : string;
  disk_usage : dict VolumeReading;
  temperatures : dict float;
  smart_data : dict json;
  (** the monitor's own list object, not a copy *)
  alerts : loc;
  healthy : bool
}.
End HealthReport.

(** [SSDHealthMonitor(temp_threshold, usage_threshold)] *)
Definition __init__ (temp_threshold usage_threshold : Z) : M SSDHealthMonitor :=
  fun h =>
    let (l, h') := alloc h in
    (Returned {| temp_threshold := temp_threshold;
                 usage_threshold := usage_threshold;
                 alerts := l |}, h').

(** The defaults of the constructor's signature. *)
Definition default_temp_threshold : Z := 70.
Definition default_usage_threshold : Z := 90.

(** [self.alerts.append(alert)] *)
Definition append_alert (self : SSDHealthMonitor) (a : alert) : M unit :=
  fun h => (Returned tt, append h (alerts self) a).

(** Reading [self.alerts]. *)
Definition read_alerts (self : SSDHealthMonitor) : M (list alert) :=
  fun h => (Returned (read h (alerts self)), h).

(** *** [get_disk_usage] *)

(** [round(bytes / (1024**3), 2)] *)
Definition gigabytes (bytes : Z) : M float :=
  let! x := lift (truediv bytes (1024 ^ 3)) in
  ret (round x 2).

(** The threshold test on one partition (lines 70-75). *)
Definition check_usage (self : SSDHealthMonitor) (device : string)
    (percent_used : float) : M unit :=
  if float_gt_int percent_used (usage_threshold self)
  then append_alert self (UsageAlert device percent_used (usage_threshold self))
  else ret tt.

(** The body of the loop over the partitions (lines 58-79). *)
Definition usage_of_partition (self : SSDHealthMonitor) (w : world)
    (partition : psutil.sdiskpart) (disk_usage : dict VolumeReading)
    : M (dict VolumeReading) :=
  try_except
    (let! usage := lift (psutil_disk_usage w (psutil.mountpoint partition)) in
     let! ratio := lift (truediv (psutil.used usage) (psutil.total usage)) in
     let percent_used := fmul ratio (float_of_int 100) in
     let! total_gb := gigabytes (psutil.total usage) in
     let! used_gb := gigabytes (psutil.used usage) in
     let! free_gb := gigabytes (psutil.free usage) in
     let disk_usage :=
       dict_set (psutil.device partition)
         {| mountpoint := psutil.mountpoint partition;
            total_gb := total_gb;
            used_gb := used_gb;
            free_gb := free_gb;
            percent_used := round percent_used 1 |}
         disk_usage in
     check_usage self (psutil.device partition) percent_used;;
     ret disk_usage)
    (fun e => match e with
              | PermissionError => Some (ret disk_usage)
              | _ => None
              end).

Definition get_disk_usage (self : SSDHealthMonitor) (w : world)
    : M (dict VolumeReading) :=
  for_ (psutil_disk_partitions w) (usage_of_partition self w) [].

(** *** [get_drive_temperatures] *)

Definition storage_keywords : list string := ["nvme"; "ssd"; "sata"; "drive"].

(** [any(keyword in sensor_name.lower() for keyword in [...])] *)
Definition storage_relevant (sensor_name : string) : bool :=
  existsb (contains (lower sensor_name)) storage_keywords.

(** The threshold test on one reading (lines 109-114). *)
Definition check_temperature (self : SSDHealthMonitor) (sensor_name : string)
    (temp : float) : M unit :=
  if float_gt_int temp (temp_threshold self)
  then append_alert self (TemperatureAlert sensor_name temp (temp_threshold self))
  else ret tt.

(** The body of the loop over the readings of one group (lines 105-114). *)
Definition temperature_of_sensor (self : SSDHealthMonitor) (sensor_name : string)
    (sensor : psutil.shwtemp) (temperatures : dict float) : M (dict float) :=
  let temp := psutil.current sensor in
  let temperatures :=
    dict_set (sensor_name +:+ "_" +:+ psutil.label sensor) temp temperatures in
  check_temperature self sensor_name temp;;
  ret temperatures.

(** The body of the loop over the sensor groups (lines 103-114). *)
Definition temperatures_of_group (self : SSDHealthMonitor)
    (group : string * list psutil.shwtemp) (temperatures : dict float)
    : M (dict float) :=
  let (sensor_name, sensor_list) := group in
  if storage_relevant sensor_name
  then for_ sensor_list (temperature_of_sensor self sensor_name) temperatures
  else ret temperatures.

Definition get_drive_temperatures (self : SSDHealthMonitor) (w : world)
    : M (dict float) :=
  let temperatures : dict float := [] in
  try_except
    (let! sensors := lift (psutil_sensors_temperatures w) in
     match sensors with
     | [] => ret temperatures
     | _ => for_ sensors (temperatures_of_group self) temperatures
     end)
    (fun e => Some (ret temperatures)).

(** *** [check_smart_data] *)

Definition empty_dict : json := JDict [].

(** Lines 145-152: read the verdict of the payload, when it has one. *)
Definition check_smart_status (self : SSDHealthMonitor) (drive_path : text)
    (smart_data : json) : M unit :=
  let! present := lift (json_in "smart_status" smart_data) in
  if present : bool then
    let! smart_status := lift (json_getitem smart_data "smart_status") in
    let! health_status := lift (json_getitem smart_status "passed") in
    if truthy health_status then ret tt
    else append_alert self (SmartAlert drive_path)
  else ret tt.

Definition check_smart_data (self : SSDHealthMonitor) (w : world)
    (drive_path : text) : M json :=
  try_except
    (let! result :=
       lift (subprocess_run w
               [text_of "smartctl"; text_of "-a"; text_of "-j"; drive_path]) in
     if subprocess.returncode result =? 0 then
       let! smart_data := lift (json_loads w (subprocess.stdout result)) in
       check_smart_status self drive_path smart_data;;
       ret smart_data
     else ret empty_dict)
    (fun e => match e with
              | FileNotFoundError => Some (ret empty_dict)
              | TimeoutExpired => Some (ret empty_dict)
              | JSONDecodeError => Some (ret empty_dict)
              | _ => Some (ret empty_dict)
              end).

(** *** [send_email_alert] *)

Definition send_email_alert (self : SSDHealthMonitor) (w : world)
    (smtp_server : string) (smtp_port : Z)
    (email_user email_pass recipient : string) : M unit :=
  let! current := read_alerts self in
  match current with
  | [] => ret tt
  | _ =>
      try_except
        (lift (smtp_send_message w smtp_server smtp_port email_user email_pass
                 recipient current))
        (fun e => Some (ret tt))
  end.

(** *** [run_full_check] *)

(** Lines 234-238: the path handed to [smartctl] for a device. *)
Definition device_path_of (device : string) : outcome text :=
  if endswith device ":" then
    match first_char device with
    | Returned letter =>
        match chr (ord "a" + ord letter - ord "A") with
        | Returned drive => Returned (text_of "/dev/sd" ++ drive)
        | Raised e => Raised e
        end
    | Raised e => Raised e
    end
  else Returned (text_of device).

(** The body of the loop over the devices (lines 233-240). *)
Definition smart_of_device (self : SSDHealthMonitor) (w : world)
    (device : string) (smart_data : dict json) : M (dict json) :=
  let! device_path := lift (device_path_of device) in
  let! verdict := check_smart_data self w device_path in
  ret (dict_set device verdict smart_data).

Definition run_full_check (self : SSDHealthMonitor) (w : world)
    : M HealthReport.t :=
  let! disk_usage := get_disk_usage self w in
  let! temperatures := get_drive_temperatures self w in
  let! smart_data := for_ (keys disk_usage) (smart_of_device self w) [] in
  let! current := read_alerts self in
  ret {| HealthReport.timestamp := datetime_now_isoformat w;
         HealthReport.disk_usage := disk_usage;
         HealthReport.temperatures := temperatures;
         HealthReport.smart_data := smart_data;
         HealthReport.alerts := alerts self;
         HealthReport.healthy := (length current =? 0)%nat |}.

(** [main] builds its monitor with these thresholds. *)
Definition main_monitor : M SSDHealthMonitor := __init__ 75 85.

(** *** [main] *)


(** * Vocabulary of the statements *)

(** ** What a computation appends to a list *)

(** The store after a run of appends of [xs] to the list at [l]. *)
Definition extend (h : store alert) (l : loc) (xs : list alert) : store alert :=
  <[l := read h l ++ xs]> h.

(** [emits l m o xs]: from every store, [m] ends in [o] and its whole effect
    is to append [xs], in this order, to the list at [l]. *)
Definition emits {A} (l : loc) (m : M A) (o : outcome A) (xs : list alert) : Prop :=
  ∀ h, m h = (o, extend h l xs).

(** A store whose list at [l] is empty. *)
Definition blank (l : loc) : store alert := replicate (S l) [].

(** [writer l P m]: [m] only appends to the list at [l], and everything it
    appends satisfies [P]. *)
Definition writer {A} (l : loc) (P : alert -> Prop) (m : M A) : Prop :=
  ∃ o xs, emits l m o xs ∧ Forall P xs.

(** [total_writer l P m]: moreover [m] never raises. *)
Definition total_writer {A} (l : loc) (P : alert -> Prop) (m : M A) : Prop :=
  ∃ a xs, emits l m (Returned a) xs ∧ Forall P xs.

(** [appends_only l m]: whatever [m] does and returns, the store it leaves
    is the one it found with some alerts appended to the list at [l]. *)
Definition appends_only {A} (l : loc) (m : M A) : Prop :=
  ∀ h, ∃ xs, snd (m h) = extend h l xs.



(** ** The alert list *)

Definition of_category (c : category) (a : alert) : Prop := category_of a = c.

(** The position of a category in the order of collection. *)
Definition rank (a : alert) : nat :=
  match category_of a with Usage => 0 | Temperature => 1 | Smart => 2 end.

(** All usage alerts, then all temperature alerts, then all SMART alerts. *)
Definition in_collection_order (xs : list alert) : Prop :=
  ∃ us ts ss,
    xs = us ++ ts ++ ss ∧
    Forall (of_category Usage) us ∧
    Forall (of_category Temperature) ts ∧
    Forall (of_category Smart) ss.



(** ** Sensors, device names and the diagnostic utility *)

(** The readings that pass the keyword filter, with the name of their group. *)
Definition qualifying (sensors : dict (list psutil.shwtemp))
    : list (string * psutil.shwtemp) :=
  flat_map (λ group : string * list psutil.shwtemp,
              if storage_relevant group.1 then map (pair group.1) group.2 else [])
           sensors.

(** The three ways in which a host offers no storage temperature. *)
Inductive no_storage_sensor (w : world) : Prop :=
| sensors_unavailable e :
    psutil_sensors_temperatures w = Raised e -> no_storage_sensor w
| sensors_empty :
    psutil_sensors_temperatures w = Returned [] -> no_storage_sensor w
| sensors_irrelevant sensors :
    psutil_sensors_temperatures w = Returned sensors ->
    qualifying sensors = [] -> no_storage_sensor w.



(** The command line of the diagnostic utility. *)
Definition smartctl (drive_path : text) : list text :=
  [text_of "smartctl"; text_of "-a"; text_of "-j"; drive_path].

(** The four ways in which the utility gives no usable answer. *)
Inductive tool_failure (w : world) (drive_path : text) : Prop :=
| tool_absent :
    subprocess_run w (smartctl drive_path) = Raised FileNotFoundError ->
    tool_failure w drive_path
| tool_timed_out :
    subprocess_run w (smartctl drive_path) = Raised TimeoutExpired ->
    tool_failure w drive_path
| tool_exit_nonzero result :
    subprocess_run w (smartctl drive_path) = Returned result ->
    subprocess.returncode result ≠ 0 ->
    tool_failure w drive_path
| tool_output_unparsable result :
    subprocess_run w (smartctl drive_path) = Returned result ->
    subprocess.returncode result = 0 ->
    json_loads w (subprocess.stdout result) = Raised JSONDecodeError ->
    tool_failure w drive_path.

(** The pass/fail flag of a SMART payload, when it has one. *)
Definition verdict (smart_data : json) : option bool :=
  match json_in "smart_status" smart_data with
  | Returned true =>
      match json_getitem smart_data "smart_status" with
      | Returned smart_status =>
          match json_getitem smart_status "passed" with
          | Returned health_status => Some (truthy health_status)
          | Raised _ => None
          end
      | Raised _ => None
      end
  | _ => None
  end.

(** ** The alerts of a run *)

(** The usage alert of one partition, if any. *)
Definition usage_alerts_of (self : SSDHealthMonitor) (w : world)
    (partition : psutil.sdiskpart) : list alert :=
  match psutil_disk_usage w (psutil.mountpoint partition) with
  | Returned usage =>
      match truediv (psutil.used usage) (psutil.total usage) with
      | Returned ratio =>
          let percent_used := fmul ratio (float_of_int 100) in
          if float_gt_int percent_used (usage_threshold self)
          then [UsageAlert (psutil.device partition) percent_used (usage_threshold self)]
          else []
      | Raised _ => []
      end
  | Raised _ => []
  end.

(** One usage alert per partition above the threshold, in the order of the
    partitions. *)
Definition usage_alerts (self : SSDHealthMonitor) (w : world) : list alert :=
  flat_map (usage_alerts_of self w) (psutil_disk_partitions w).

(** The temperature alert of one reading, if any. *)
Definition temperature_alerts_of (self : SSDHealthMonitor)
    (reading : string * psutil.shwtemp) : list alert :=
  if float_gt_int (psutil.current reading.2) (temp_threshold self)
  then [TemperatureAlert reading.1 (psutil.current reading.2) (temp_threshold self)]
  else [].

(** One temperature alert per qualifying reading above the threshold, in
    the order of the readings. *)
Definition temperature_alerts (self : SSDHealthMonitor) (w : world) : list alert :=
  match psutil_sensors_temperatures w with
  | Returned sensors => flat_map (temperature_alerts_of self) (qualifying sensors)
  | Raised _ => []
  end.

(** The SMART alert of one drive, if any: the utility ran, exited with
    code zero, printed JSON, and the payload says "failed". *)
Definition smart_alerts_of_path (w : world) (drive_path : text) : list alert :=
  match subprocess_run w (smartctl drive_path) with
  | Returned result =>
      if subprocess.returncode result =? 0 then
        match json_loads w (subprocess.stdout result) with
        | Returned smart_data =>
            match verdict smart_data with
            | Some false => [SmartAlert drive_path]
            | _ => []
            end
        | Raised _ => []
        end
      else []
  | Raised _ => []
  end.

Definition smart_alerts_of (w : world) (device : string) : list alert :=
  match device_path_of device with
  | Returned drive_path => smart_alerts_of_path w drive_path
  | Raised _ => []
  end.

(** One SMART alert per device with a failing verdict, in the order of the
    devices. *)
Definition smart_alerts (w : world) (devices : list string) : list alert :=
  flat_map (smart_alerts_of w) devices.

(** ** Sizes in gigabytes *)

(** [round(bytes / (1024**3), 2)], in hundredths of a gigabyte, for a byte
    count below [2^53], where the division is exact. *)
Definition centigigabytes (bytes : Z) : Z := div_half_even (bytes * 10 ^ 2) (1024 ^ 3).

(** The float closest to [c] hundredths. *)
Definition hundredths (c : Z) : float := nearest_decimal false c 2.

(** Byte counts as a file system reports them: sizes, hence not negative,
    that add up, within the range of a 64-bit counter. *)
Definition consistent (usage : psutil.sdiskusage) : Prop :=
  0 <= psutil.used usage ∧ 0 <= psutil.free usage ∧
  psutil.used usage + psutil.free usage = psutil.total usage ∧
  psutil.total usage < 2 ^ 64.

(** The three sizes of a reading add up.  Each is the float closest to a
    two-decimal number, given here in hundredths; as two-decimal numbers,
    used plus free is total up to one hundredth; and the floats themselves,
    as real numbers, are at most 0.0101 apart: one hundredth and what the
    three floats are off their two-decimal numbers. *)
Definition adds_up (reading : VolumeReading) : Prop :=
  ∃ used free total : Z,
    used_gb reading = hundredths used ∧
    free_gb reading = hundredths free ∧
    total_gb reading = hundredths total ∧
    0 <= used ∧ 0 <= free ∧ 0 <= total ∧
    -1 <= used + free - total <= 1 ∧
    ∃ u f t : Q,
      float_value (used_gb reading) = Some u ∧
      float_value (free_gb reading) = Some f ∧
      float_value (total_gb reading) = Some t ∧
      (- (101 # 10000) <= u + f - t)%Q ∧ (u + f - t <= 101 # 10000)%Q.

(** ** Partitions and readings, as the collectors see them *)

(** The usage query on this partition is refused. *)
Definition denied (w : world) (partition : psutil.sdiskpart) : bool :=
  match psutil_disk_usage w (psutil.mountpoint partition) with
  | Raised PermissionError => true
  | _ => false
  end.

(** The same host with another list of partitions. *)
Definition with_partitions (w : world) (partitions : list psutil.sdiskpart) : world :=
  {| psutil_disk_partitions := partitions;
     psutil_disk_usage := psutil_disk_usage w;
     psutil_sensors_temperatures := psutil_sensors_temperatures w;
     subprocess_run := subprocess_run w;
     json_loads := json_loads w;
     datetime_now_isoformat := datetime_now_isoformat w;
     smtp_send_message := smtp_send_message w |}.

(** Why usage collection can fail on a partition: the query raises
    something other than [PermissionError], or the volume has size zero. *)
Definition breaks_collection (w : world) (partition : psutil.sdiskpart) (e : exn) : Prop :=
  (psutil_disk_usage w (psutil.mountpoint partition) = Raised e ∧ e ≠ PermissionError) ∨
  (e = ZeroDivisionError ∧
   ∃ usage, psutil_disk_usage w (psutil.mountpoint partition) = Returned usage ∧
            psutil.total usage = 0).

(** The usage query on this partition answers. *)
Definition answers (w : world) (partition : psutil.sdiskpart) : Prop :=
  ∃ usage, psutil_disk_usage w (psutil.mountpoint partition) = Returned usage.

(** The key under which a reading is stored in [temperatures]. *)
Definition sensor_key (reading : string * psutil.shwtemp) : string :=
  reading.1 +:+ "_" +:+ psutil.label reading.2.

(** The readings temperature collection looks at: those of the groups that
    pass the keyword filter, or none when the query raises. *)
Definition storage_readings (w : world) : list (string * psutil.shwtemp) :=
  match psutil_sensors_temperatures w with
  | Returned sensors => qualifying sensors
  | Raised _ => []
  end.

(** ** Causes of alerts *)

(** What stands behind an alert of a run on host [w] whose usage collection
    found [devices]: the reading it reports is above the monitor's
    threshold and comes from the host, or the payload of the drive says
    "failed". *)
Definition justified (self : SSDHealthMonitor) (w : world) (devices : list string)
    (a : alert) : Prop :=
  match a with
  | UsageAlert device percent_used threshold =>
      threshold = usage_threshold self ∧ exceeds percent_used threshold ∧
      ∃ partition usage ratio,
        partition ∈ psutil_disk_partitions w ∧ psutil.device partition = device ∧
        psutil_disk_usage w (psutil.mountpoint partition) = Returned usage ∧
        truediv (psutil.used usage) (psutil.total usage) = Returned ratio ∧
        percent_used = fmul ratio (float_of_int 100)
  | TemperatureAlert sensor_name temp threshold =>
      threshold = temp_threshold self ∧ exceeds temp threshold ∧
      storage_relevant sensor_name = true ∧
      ∃ reading, reading ∈ storage_readings w ∧ reading.1 = sensor_name ∧
                 psutil.current reading.2 = temp
  | SmartAlert drive_path =>
      ∃ device result payload,
        device ∈ devices ∧ device_path_of device = Returned drive_path ∧
        subprocess_run w (smartctl drive_path) = Returned result ∧
        subprocess.returncode result = 0 ∧
        json_loads w (subprocess.stdout result) = Returned payload ∧
        verdict payload = Some false
  end.

(** * Sample hosts *)

Module Sample.

Definition usage_of (total used free : Z) : outcome psutil.sdiskusage :=
  Returned {| psutil.total := total; psutil.used := used; psutil.free := free |}.

Definition smartctl_json := "{...}"%string.

(** One disk mounted twice and 90% full, an NVMe sensor at 80 degrees and a
    SMART verdict of failure. *)
Definition failing_host : world := {|
  psutil_disk_partitions :=
    [ {| psutil.device := "/dev/sda1"; psutil.mountpoint := "/" |};
      {| psutil.device := "/dev/sda1"; psutil.mountpoint := "/home" |} ];
  psutil_disk_usage := fun _ => usage_of 1000000000000 900000000000 100000000000;
  psutil_sensors_temperatures :=
    Returned [ ("nvme", [ {| psutil.label := "Composite";
                             psutil.current := float_of_int 80 |} ]);
               ("coretemp", [ {| psutil.label := "Core 0";
                                 psutil.current := float_of_int 95 |} ]) ];
  subprocess_run := fun _ =>
    Returned {| subprocess.returncode := 0; subprocess.stdout := smartctl_json |};
  json_loads := fun _ =>
    Returned (JDict [("smart_status", JDict [("passed", JBool false)])]);
  datetime_now_isoformat := "2024-05-01T10:00:00";
  smtp_send_message := fun _ _ _ _ _ _ => Returned tt
|}.

(** The same disk half full, a cool sensor and a SMART verdict of success. *)
Definition healthy_host : world := {|
  psutil_disk_partitions :=
    [ {| psutil.device := "/dev/sda1"; psutil.mountpoint := "/" |} ];
  psutil_disk_usage := fun _ => usage_of 1000000000000 500000000000 500000000000;
  psutil_sensors_temperatures :=
    Returned [ ("nvme", [ {| psutil.label := "Composite";
                             psutil.current := float_of_int 40 |} ]) ];
  subprocess_run := fun _ =>
    Returned {| subprocess.returncode := 0; subprocess.stdout := smartctl_json |};
  json_loads := fun _ =>
    Returned (JDict [("smart_status", JDict [("passed", JBool true)])]);
  datetime_now_isoformat := "2024-05-01T11:00:00";
  smtp_send_message := fun _ _ _ _ _ _ => Returned tt
|}.

(** The monitor [main] builds, in an otherwise empty store. *)
Definition monitor : SSDHealthMonitor :=
  {| temp_threshold := 75; usage_threshold := 85; alerts := 0%nat |}.

Definition fresh : store alert := [[]].

End Sample.

Module EmptyVolume.

(** A host with an ordinary disk, then a volume of size zero, then another
    ordinary disk. *)
Definition host : world := {|
  psutil_disk_partitions :=
    [ {| psutil.device := "/dev/sda1"; psutil.mountpoint := "/" |};
      {| psutil.device := "/dev/sr0"; psutil.mountpoint := "/media/cdrom" |};
      {| psutil.device := "/dev/sdb1"; psutil.mountpoint := "/data" |} ];
  psutil_disk_usage := fun mountpoint =>
    if String.eqb mountpoint "/media/cdrom" then Sample.usage_of 0 0 0
    else Sample.usage_of 1000000000000 500000000000 500000000000;
  psutil_sensors_temperatures := Returned [];
  subprocess_run := fun _ => Raised FileNotFoundError;
  json_loads := fun _ => Raised JSONDecodeError;
  datetime_now_isoformat := "2024-05-01T12:00:00";
  smtp_send_message := fun _ _ _ _ _ _ => Returned tt
|}.

End EmptyVolume.

Module NoSensor.

(** A host whose only sensor group is the processor's. *)
Definition host : world := {|
  psutil_disk_partitions := [];
  psutil_disk_usage := fun _ => Raised PermissionError;
  psutil_sensors_temperatures :=
    Returned [ ("coretemp", [ {| psutil.label := "Core 0";
                                 psutil.current := float_of_int 95 |} ]) ];
  subprocess_run := fun _ => Raised FileNotFoundError;
  json_loads := fun _ => Raised JSONDecodeError;
  datetime_now_isoformat := "2024-05-01T13:00:00";
  smtp_send_message := fun _ _ _ _ _ _ => Returned tt
|}.

End NoSensor.

Module FlakyTool.

Definition failing_payload : json :=
  JDict [("smart_status", JDict [("passed", JBool false)])].

(** Two disks; the utility times out on the first and reports a failing
    drive for the second. *)
Definition host : world := {|
  psutil_disk_partitions :=
    [ {| psutil.device := "/dev/sda1"; psutil.mountpoint := "/" |};
      {| psutil.device := "/dev/sdb1"; psutil.mountpoint := "/data" |} ];
  psutil_disk_usage := fun _ =>
    Sample.usage_of 1000000000000 500000000000 500000000000;
  psutil_sensors_temperatures := Raised AttributeError;
  subprocess_run := fun args =>
    if decide (args = smartctl "/dev/sda1") then Raised TimeoutExpired
    else Returned {| subprocess.returncode := 0;
                     subprocess.stdout := Sample.smartctl_json |};
  json_loads := fun _ => Returned failing_payload;
  datetime_now_isoformat := "2024-05-01T14:00:00";
  smtp_send_message := fun _ _ _ _ _ _ => Returned tt
|}.

End FlakyTool.

Module SmallVolume.

(** A volume of 107.6 MB, of which 69.9 MB are used and 37.7 MB free. *)
Definition host : world := {|
  psutil_disk_partitions :=
    [ {| psutil.device := "/dev/sdb1"; psutil.mountpoint := "/mnt/stick" |} ];
  psutil_disk_usage := fun _ => Sample.usage_of 107600000 69900000 37700000;
  psutil_sensors_temperatures := Returned [];
  subprocess_run := fun _ => Raised FileNotFoundError;
  json_loads := fun _ => Raised JSONDecodeError;
  datetime_now_isoformat := "2024-05-01T16:00:00";
  smtp_send_message := fun _ _ _ _ _ _ => Returned tt
|}.

End SmallVolume.

Module BrokenDisk.

(** A disk that is 90% full, then a volume whose usage query fails with an
    input/output error, then another disk. *)
Definition host : world := {|
  psutil_disk_partitions :=
    [ {| psutil.device := "/dev/sda1"; psutil.mountpoint := "/" |};
      {| psutil.device := "/dev/sdb1"; psutil.mountpoint := "/mnt/usb" |};
      {| psutil.device := "/dev/sdc1"; psutil.mountpoint := "/data" |} ];
  psutil_disk_usage := fun mountpoint =>
    if String.eqb mountpoint "/mnt/usb" then Raised OSError
    else Sample.usage_of 1000000000000 900000000000 100000000000;
  psutil_sensors_temperatures :=
    Returned [ ("nvme", [ {| psutil.label := "Composite";
                             psutil.current := float_of_int 80 |} ]) ];
  subprocess_run := fun _ => Raised FileNotFoundError;
  json_loads := fun _ => Raised JSONDecodeError;
  datetime_now_isoformat := "2024-05-01T15:00:00";
  smtp_send_message := fun _ _ _ _ _ _ => Returned tt
|}.

End BrokenDisk.

(** * Properties *)

(** ** The store *)

Lemma append_extend h l a : append h l a = extend h l [a].
Proof. reflexivity. Qed.

Lemma extend_unallocated h l xs : ¬ allocated h l -> extend h l xs = h.
Proof.
  unfold allocated, extend. intros Hl.
  apply list_insert_ge. lia.
Qed.

Lemma read_extend h l xs :
  allocated h l -> read (extend h l xs) l = read h l ++ xs.
Proof.
  unfold allocated, extend, read. intros Hl.
  by rewrite list_lookup_total_insert_eq.
Qed.

Lemma read_extend_other h l l' xs :
  l ≠ l' -> read (extend h l xs) l' = read h l'.
Proof.
  unfold extend, read. intros Hl.
  by rewrite list_lookup_total_insert_ne.
Qed.

Lemma allocated_extend h l l' xs :
  allocated (extend h l xs) l' <-> allocated h l'.
Proof. unfold allocated, extend. by rewrite length_insert. Qed.

Lemma extend_nil h l : extend h l [] = h.
Proof.
  destruct (decide (l < length h)%nat) as [Hl|Hl].
  - unfold extend, read. rewrite app_nil_r.
    apply list_insert_id. by apply list_lookup_lookup_total_lt.
  - by apply extend_unallocated.
Qed.

Lemma extend_extend h l xs ys :
  extend (extend h l xs) l ys = extend h l (xs ++ ys).
Proof.
  destruct (decide (l < length h)%nat) as [Hl|Hl].
  - unfold extend at 1. rewrite read_extend by done.
    unfold extend. rewrite list_insert_insert_eq. by rewrite app_assoc.
  - rewrite (extend_unallocated h l xs) by done.
    by rewrite !extend_unallocated.
Qed.

Lemma alloc_spec (h : store alert) :
  let (l, h') := alloc h in
  allocated h' l ∧ read h' l = [] ∧ ¬ allocated h l ∧
  ∀ l', allocated h l' -> allocated h' l' ∧ read h' l' = read h l'.
Proof.
  unfold alloc, allocated, read. repeat split.
  - rewrite length_app. simpl. lia.
  - by rewrite lookup_total_app_r, Nat.sub_diag.
  - lia.
  - rewrite length_app. lia.
  - by rewrite lookup_total_app_l.
Qed.

Lemma emits_ret {A} l (a : A) : emits l (ret a) (Returned a) [].
Proof. intros h. unfold ret. by rewrite extend_nil. Qed.

Lemma emits_lift {A} l (o : outcome A) : emits l (lift o) o [].
Proof. intros h. unfold lift. by rewrite extend_nil. Qed.

Lemma emits_append self a :
  emits (alerts self) (append_alert self a) (Returned tt) [a].
Proof. intros h. reflexivity. Qed.

Lemma emits_bind_returned {A B} l (m : M A) (k : A -> M B) a xs o ys :
  emits l m (Returned a) xs -> emits l (k a) o ys ->
  emits l (bind m k) o (xs ++ ys).
Proof.
  intros Hm Hk h. unfold bind. rewrite Hm, Hk. by rewrite extend_extend.
Qed.

Lemma emits_bind_raised {A B} l (m : M A) (k : A -> M B) e xs :
  emits l m (Raised e) xs -> emits l (bind m k) (Raised e) xs.
Proof. intros Hm h. unfold bind. by rewrite Hm. Qed.

Lemma emits_try_returned {A} l (body : M A) handler a xs :
  emits l body (Returned a) xs -> emits l (try_except body handler) (Returned a) xs.
Proof. intros Hm h. unfold try_except. by rewrite Hm. Qed.

Lemma emits_try_caught {A} l (body : M A) handler e k xs o ys :
  emits l body (Raised e) xs -> handler e = Some k -> emits l k o ys ->
  emits l (try_except body handler) o (xs ++ ys).
Proof.
  intros Hm He Hk h. unfold try_except. rewrite Hm, He, Hk.
  by rewrite extend_extend.
Qed.

Lemma emits_try_uncaught {A} l (body : M A) handler e xs :
  emits l body (Raised e) xs -> handler e = None ->
  emits l (try_except body handler) (Raised e) xs.
Proof. intros Hm He h. unfold try_except. by rewrite Hm, He. Qed.

Lemma blank_allocated l : allocated (blank l) l.
Proof. unfold allocated, blank. rewrite length_replicate. lia. Qed.

Lemma blank_read l : read (blank l) l = [].
Proof.
  unfold read, blank. apply list_lookup_total_correct.
  apply lookup_replicate_2. lia.
Qed.

Lemma total_writer_writer {A} l P (m : M A) : total_writer l P m -> writer l P m.
Proof. intros (a & xs & ? & ?). by exists (Returned a), xs. Qed.

Lemma writer_ret {A} l P (a : A) : total_writer l P (ret a).
Proof. exists a, []. split; [apply emits_ret | constructor]. Qed.

Lemma writer_lift {A} l P (o : outcome A) : writer l P (lift o).
Proof. exists o, []. split; [apply emits_lift | constructor]. Qed.

Lemma writer_lift_returned {A} l P (a : A) : total_writer l P (lift (Returned a)).
Proof. exists a, []. split; [apply emits_lift | constructor]. Qed.

Lemma writer_append self P a : P a -> total_writer (alerts self) P (append_alert self a).
Proof. intros Ha. exists tt, [a]. split; [apply emits_append | by repeat constructor]. Qed.

Lemma writer_bind {A B} l P (m : M A) (k : A -> M B) :
  writer l P m -> (∀ a, writer l P (k a)) -> writer l P (bind m k).
Proof.
  intros (o & xs & Hm & Hxs) Hk. destruct o as [a|e].
  - destruct (Hk a) as (o' & ys & Hk' & Hys).
    exists o', (xs ++ ys). split; [by eapply emits_bind_returned | by apply Forall_app].
  - exists (Raised e), xs. split; [by apply emits_bind_raised | done].
Qed.

Lemma total_writer_bind {A B} l P (m : M A) (k : A -> M B) :
  total_writer l P m -> (∀ a, total_writer l P (k a)) -> total_writer l P (bind m k).
Proof.
  intros (a & xs & Hm & Hxs) Hk.
  destruct (Hk a) as (b & ys & Hk' & Hys).
  exists b, (xs ++ ys). split; [by eapply emits_bind_returned | by apply Forall_app].
Qed.

Lemma writer_try {A} l P (body : M A) handler :
  writer l P body -> (∀ e k, handler e = Some k -> writer l P k) ->
  writer l P (try_except body handler).
Proof.
  intros (o & xs & Hm & Hxs) Hk. destruct o as [a|e].
  - exists (Returned a), xs. split; [by apply emits_try_returned | done].
  - destruct (handler e) as [k|] eqn:He.
    + destruct (Hk e k He) as (o' & ys & Hk' & Hys).
      exists o', (xs ++ ys). split; [by eapply emits_try_caught | by apply Forall_app].
    + exists (Raised e), xs. split; [by apply emits_try_uncaught | done].
Qed.

Lemma total_writer_try {A} l P (body : M A) handler :
  writer l P body -> (∀ e, ∃ k, handler e = Some k ∧ total_writer l P k) ->
  total_writer l P (try_except body handler).
Proof.
  intros (o & xs & Hm & Hxs) Hk. destruct o as [a|e].
  - exists a, xs. split; [by apply emits_try_returned | done].
  - destruct (Hk e) as (k & He & b & ys & Hk' & Hys).
    exists b, (xs ++ ys). split; [by eapply emits_try_caught | by apply Forall_app].
Qed.

Lemma writer_for {A S} l P (body : A -> S -> M S) (xs : list A) :
  (∀ x acc, writer l P (body x acc)) -> ∀ acc, writer l P (for_ xs body acc).
Proof.
  intros Hbody. induction xs as [|x xs IH]; intros acc; simpl.
  - apply total_writer_writer, writer_ret.
  - apply writer_bind; [apply Hbody | apply IH].
Qed.

Lemma total_writer_for {A S} l P (body : A -> S -> M S) (xs : list A) :
  (∀ x acc, total_writer l P (body x acc)) -> ∀ acc, total_writer l P (for_ xs body acc).
Proof.
  intros Hbody. induction xs as [|x xs IH]; intros acc; simpl.
  - apply writer_ret.
  - apply total_writer_bind; [apply Hbody | apply IH].
Qed.

(** ** What each method appends *)

Section Methods.
Variable self : SSDHealthMonitor.
Variable w : world.

Lemma truediv_gigabyte bytes :
  truediv bytes (1024 ^ 3) =
  Returned (SFdiv prec emax (exact bytes) (exact (1024 ^ 3))).
Proof. reflexivity. Qed.

Lemma gigabytes_total P bytes : total_writer (alerts self) P (gigabytes bytes).
Proof.
  unfold gigabytes. rewrite truediv_gigabyte.
  apply total_writer_bind; [apply writer_lift_returned | intros; apply writer_ret].
Qed.

Lemma check_usage_writer device p :
  total_writer (alerts self) (of_category Usage) (check_usage self device p).
Proof.
  unfold check_usage. destruct (float_gt_int _ _).
  - by apply writer_append.
  - apply writer_ret.
Qed.

Lemma usage_of_partition_writer partition acc :
  writer (alerts self) (of_category Usage) (usage_of_partition self w partition acc).
Proof.
  unfold usage_of_partition. apply writer_try.
  - apply writer_bind; [apply writer_lift | intros usage].
    apply writer_bind; [apply writer_lift | intros ratio].
    do 3 (apply writer_bind; [apply total_writer_writer, gigabytes_total | intros ?]).
    apply writer_bind; [apply total_writer_writer, check_usage_writer | intros ?].
    apply total_writer_writer, writer_ret.
  - intros e k He. destruct e; simplify_eq.
    apply total_writer_writer, writer_ret.
Qed.

Lemma get_disk_usage_writer :
  writer (alerts self) (of_category Usage) (get_disk_usage self w).
Proof. apply writer_for, usage_of_partition_writer. Qed.

Lemma check_temperature_writer sensor_name temp :
  total_writer (alerts self) (of_category Temperature)
    (check_temperature self sensor_name temp).
Proof.
  unfold check_temperature. destruct (float_gt_int _ _).
  - by apply writer_append.
  - apply writer_ret.
Qed.

Lemma temperatures_of_group_writer group acc :
  total_writer (alerts self) (of_category Temperature)
    (temperatures_of_group self group acc).
Proof.
  unfold temperatures_of_group. destruct group as [sensor_name sensor_list].
  destruct (storage_relevant sensor_name); [|apply writer_ret].
  apply total_writer_for. intros sensor acc'. unfold temperature_of_sensor.
  apply total_writer_bind; [apply check_temperature_writer | intros; apply writer_ret].
Qed.

Lemma get_drive_temperatures_writer :
  total_writer (alerts self) (of_category Temperature) (get_drive_temperatures self w).
Proof.
  unfold get_drive_temperatures. apply total_writer_try.
  - apply writer_bind; [apply writer_lift | intros sensors].
    apply total_writer_writer. destruct sensors; [apply writer_ret|].
    apply total_writer_for, temperatures_of_group_writer.
  - intros e. eexists. split; [done | apply writer_ret].
Qed.

Lemma check_smart_status_writer drive_path smart_data :
  writer (alerts self) (of_category Smart)
    (check_smart_status self drive_path smart_data).
Proof.
  unfold check_smart_status.
  apply writer_bind; [apply writer_lift | intros present].
  destruct present; [|apply total_writer_writer, writer_ret].
  apply writer_bind; [apply writer_lift | intros smart_status].
  apply writer_bind; [apply writer_lift | intros health_status].
  apply total_writer_writer. destruct (truthy health_status).
  - apply writer_ret.
  - by apply writer_append.
Qed.

Lemma check_smart_data_writer drive_path :
  total_writer (alerts self) (of_category Smart) (check_smart_data self w drive_path).
Proof.
  unfold check_smart_data. apply total_writer_try.
  - apply writer_bind; [apply writer_lift | intros result].
    destruct (_ =? 0); [|apply total_writer_writer, writer_ret].
    apply writer_bind; [apply writer_lift | intros smart_data].
    apply writer_bind; [apply check_smart_status_writer | intros ?].
    apply total_writer_writer, writer_ret.
  - intros e. exists (ret empty_dict). split; [by destruct e | apply writer_ret].
Qed.

Lemma endswith_nonempty s suffix :
  suffix ≠ EmptyString -> endswith s suffix = true -> s ≠ EmptyString.
Proof.
  intros Hne Hs ->. simpl in Hs. destruct suffix; [done|]. simpl in Hs. done.
Qed.

Lemma ord_range c : 0 <= ord c < 256.
Proof.
  unfold ord. pose proof (N_ascii_bounded c). lia.
Qed.

(** The character the translation computes always exists. *)
Lemma chr_of_first_char c : chr (ord "a" + ord c - ord "A") = Returned [ord c + 32].
Proof.
  pose proof (ord_range c) as Hc. unfold chr.
  change (ord "a") with 97. change (ord "A") with 65.
  replace (97 + ord c - 65) with (ord c + 32) by lia.
  rewrite (proj2 (Z.leb_le 0 (ord c + 32))), (proj2 (Z.ltb_lt (ord c + 32) 1114112));
    [done | lia | lia].
Qed.

Lemma device_path_of_returns device : ∃ path, device_path_of device = Returned path.
Proof.
  unfold device_path_of. destruct (endswith device ":") eqn:He; [|by eexists].
  destruct device as [|c s]; [by apply endswith_nonempty in He|].
  simpl first_char. cbv iota. rewrite chr_of_first_char. by eexists.
Qed.

Lemma smart_of_device_writer device acc :
  total_writer (alerts self) (of_category Smart) (smart_of_device self w device acc).
Proof.
  unfold smart_of_device. destruct (device_path_of_returns device) as [path ->].
  apply total_writer_bind; [apply writer_lift_returned | intros ?].
  apply total_writer_bind; [apply check_smart_data_writer | intros ?].
  apply writer_ret.
Qed.

Lemma smart_loop_writer devices acc :
  total_writer (alerts self) (of_category Smart)
    (for_ devices (smart_of_device self w) acc).
Proof. apply total_writer_for, smart_of_device_writer. Qed.

End Methods.

(** ** The report *)

(** A run goes through usage, temperature and SMART collection in this order
    and raises only if usage collection does; at each stage the alerts of
    the stage are appended to the monitor's list. *)
Lemma run_full_check_spec (self : SSDHealthMonitor) (w : world) :
  ∃ o us,
    emits (alerts self) (get_disk_usage self w) o us ∧
    Forall (of_category Usage) us ∧
    match o with
    | Raised e => emits (alerts self) (run_full_check self w) (Raised e) us
    | Returned disk_usage =>
        ∃ temperatures ts smart_data ss,
          emits (alerts self) (get_drive_temperatures self w) (Returned temperatures) ts ∧
          Forall (of_category Temperature) ts ∧
          emits (alerts self) (for_ (keys disk_usage) (smart_of_device self w) [])
            (Returned smart_data) ss ∧
          Forall (of_category Smart) ss ∧
          ∀ h,
            run_full_check self w h =
            (Returned
               {| HealthReport.timestamp := datetime_now_isoformat w;
                  HealthReport.disk_usage := disk_usage;
                  HealthReport.temperatures := temperatures;
                  HealthReport.smart_data := smart_data;
                  HealthReport.alerts := alerts self;
                  HealthReport.healthy :=
                    (length (read (extend h (alerts self) (us ++ ts ++ ss)) (alerts self))
                     =? 0)%nat |},
             extend h (alerts self) (us ++ ts ++ ss))
    end.
Proof.
  destruct (get_disk_usage_writer self w) as (o & us & Hu & HUs).
  exists o, us. split; [done|]. split; [done|].
  destruct o as [disk_usage|e].
  - destruct (get_drive_temperatures_writer self w) as (temperatures & ts & Ht & HTs).
    destruct (smart_loop_writer self w (keys disk_usage) []) as (smart_data & ss & Hs & HSs).
    exists temperatures, ts, smart_data, ss. repeat split; try done.
    intros h. unfold run_full_check, bind, read_alerts, ret.
    rewrite Hu, Ht, Hs. by rewrite !extend_extend.
  - by apply emits_bind_raised.
Qed.

(** A run returns a report exactly when usage collection does not raise. *)
Lemma run_full_check_returns (self : SSDHealthMonitor) (w : world) h :
  raises (fst (run_full_check self w h)) = raises (fst (get_disk_usage self w h)).
Proof.
  destruct (run_full_check_spec self w) as (o & us & Hu & _ & Hrun).
  rewrite Hu. destruct o as [disk_usage|e].
  - destruct Hrun as (? & ? & ? & ? & _ & _ & _ & _ & Hrun). by rewrite Hrun.
  - by rewrite Hrun.
Qed.

Lemma length_eqb_nil {A} (xs : list A) : (length xs =? 0)%nat = true <-> xs = [].
Proof. destruct xs; simpl; split; intros; done. Qed.

Lemma run_full_check_report (self : SSDHealthMonitor) (w : world) h r h' :
  run_full_check self w h = (Returned r, h') ->
  HealthReport.alerts r = alerts self ∧
  HealthReport.healthy r = (length (read h' (alerts self)) =? 0)%nat.
Proof.
  intros Hrun.
  destruct (run_full_check_spec self w) as (o & us & _ & _ & Hspec).
  destruct o as [disk_usage|e].
  - destruct Hspec as (? & ts & ? & ss & _ & _ & _ & _ & Hspec).
    rewrite Hspec in Hrun. by injection Hrun as <- <-.
  - rewrite Hspec in Hrun. discriminate.
Qed.

(** C1. For every run that returns a report, the report's [healthy] entry
    is true if and only if the alert list the report refers to (the
    monitor's own list) is empty in the store the run leaves behind, that
    is, at the time the report is assembled.  Nothing is assumed about which
    collector appended the alerts. *)
Theorem healthy_iff_no_alerts (self : SSDHealthMonitor) (w : world) h r h' :
  run_full_check self w h = (Returned r, h') ->
  HealthReport.healthy r = true <-> read h' (HealthReport.alerts r) = [].
Proof.
  intros Hrun. apply run_full_check_report in Hrun as [-> ->].
  apply length_eqb_nil.
Qed.

(** ** Order and persistence of the alerts *)

(** What one run appends: the alerts of the three stages, one after the
    other, nothing dropped and nothing merged. *)
Lemma run_full_check_appends (self : SSDHealthMonitor) (w : world) h r h' :
  allocated h (alerts self) ->
  run_full_check self w h = (Returned r, h') ->
  ∃ us ts ss,
    emits (alerts self) (get_disk_usage self w) (Returned (HealthReport.disk_usage r)) us ∧
    emits (alerts self) (get_drive_temperatures self w)
      (Returned (HealthReport.temperatures r)) ts ∧
    emits (alerts self)
      (for_ (keys (HealthReport.disk_usage r)) (smart_of_device self w) [])
      (Returned (HealthReport.smart_data r)) ss ∧
    Forall (of_category Usage) us ∧
    Forall (of_category Temperature) ts ∧
    Forall (of_category Smart) ss ∧
    h' = extend h (alerts self) (us ++ ts ++ ss) ∧
    read h' (alerts self) = read h (alerts self) ++ us ++ ts ++ ss ∧
    allocated h' (alerts self).
Proof.
  intros Hl Hrun.
  destruct (run_full_check_spec self w) as (o & us & Hu & HUs & Hspec).
  destruct o as [disk_usage|e]; [|rewrite Hspec in Hrun; discriminate].
  destruct Hspec as (temperatures & ts & smart_data & ss & Ht & HTs & Hs & HSs & Hspec).
  rewrite Hspec in Hrun. injection Hrun as <- <-. simpl.
  exists us, ts, ss. repeat split; try done.
  - by rewrite read_extend.
  - by apply allocated_extend.
Qed.

Lemma writer_appends_only {A} l P (m : M A) : writer l P m -> appends_only l m.
Proof. intros (o & xs & Hm & _) h. exists xs. by rewrite Hm. Qed.

Lemma appends_only_read {A} l (m : M A) h :
  appends_only l m -> allocated h l ->
  allocated (snd (m h)) l ∧ ∃ xs, read (snd (m h)) l = read h l ++ xs.
Proof.
  intros Hm Hl. destruct (Hm h) as [xs ->]. split.
  - by apply allocated_extend.
  - exists xs. by apply read_extend.
Qed.

Lemma send_email_alert_keeps_store self w smtp_server smtp_port email_user email_pass
    recipient h :
  send_email_alert self w smtp_server smtp_port email_user email_pass recipient h
  = (Returned tt, h).
Proof.
  unfold send_email_alert, bind, read_alerts, try_except, lift, ret.
  destruct (read h (alerts self)); [done|].
  destruct (smtp_send_message _ _ _ _ _ _ _) as [[]|e]; done.
Qed.

(** Every method leaves what the list already held in place. *)
Lemma methods_only_append (self : SSDHealthMonitor) (w : world) :
  appends_only (alerts self) (get_disk_usage self w) ∧
  appends_only (alerts self) (get_drive_temperatures self w) ∧
  (∀ drive_path, appends_only (alerts self) (check_smart_data self w drive_path)) ∧
  (∀ smtp_server smtp_port email_user email_pass recipient,
     appends_only (alerts self)
       (send_email_alert self w smtp_server smtp_port email_user email_pass recipient)) ∧
  appends_only (alerts self) (run_full_check self w).
Proof.
  repeat split.
  - eapply writer_appends_only, get_disk_usage_writer.
  - eapply writer_appends_only, total_writer_writer, get_drive_temperatures_writer.
  - intros p. eapply writer_appends_only, total_writer_writer, check_smart_data_writer.
  - intros ????? h. exists []. by rewrite send_email_alert_keeps_store, extend_nil.
  - intros h. destruct (run_full_check_spec self w) as (o & us & _ & _ & Hspec).
    destruct o as [disk_usage|e].
    + destruct Hspec as (? & ts & ? & ss & _ & _ & _ & _ & Hspec).
      exists (us ++ ts ++ ss). by rewrite Hspec.
    + exists us. by rewrite Hspec.
Qed.

Lemma emits_functional {A} l (m : M A) o xs o' xs' :
  emits l m o xs -> emits l m o' xs' -> o = o' ∧ xs = xs'.
Proof.
  intros H1 H2. specialize (H1 (blank l)). rewrite H2 in H1.
  injection H1 as -> H1. split; [done|].
  apply (f_equal (λ h, read h l)) in H1.
  rewrite !read_extend in H1 by apply blank_allocated.
  by apply app_inv_head in H1.
Qed.

Lemma for_emits {A S} l (body : A -> S -> M S) (f : A -> list alert) (xs : list A) :
  (∀ x acc, ∃ o, emits l (body x acc) o (f x)) ->
  ∀ acc, ∃ o ys, emits l (for_ xs body acc) o ys ∧
                 (raises o = false -> ys = flat_map f xs).
Proof.
  intros Hbody. induction xs as [|x xs IH]; intros acc.
  - exists (Returned acc), []. split; [apply emits_ret | done].
  - destruct (Hbody x acc) as [[acc'|e] Hx].
    + destruct (IH acc') as (o & ys & Hxs & Hys).
      exists o, (f x ++ ys). split; [by eapply emits_bind_returned|].
      intros Ho. simpl. by rewrite Hys.
    + exists (Raised e), (f x). split; [by apply emits_bind_raised | done].
Qed.

Lemma for_emits_total {A S} l (body : A -> S -> M S) (f : A -> list alert) (xs : list A) :
  (∀ x acc, ∃ acc', emits l (body x acc) (Returned acc') (f x)) ->
  ∀ acc, ∃ acc', emits l (for_ xs body acc) (Returned acc') (flat_map f xs).
Proof.
  intros Hbody. induction xs as [|x xs IH]; intros acc.
  - exists acc. apply emits_ret.
  - destruct (Hbody x acc) as [acc' Hx]. destruct (IH acc') as (acc'' & Hxs).
    exists acc''. by eapply emits_bind_returned.
Qed.

Section Alerts.
Variable self : SSDHealthMonitor.
Variable w : world.

Lemma check_usage_emits device p :
  emits (alerts self) (check_usage self device p) (Returned tt)
    (if float_gt_int p (usage_threshold self)
     then [UsageAlert device p (usage_threshold self)] else []).
Proof.
  unfold check_usage. destruct (float_gt_int _ _);
    [apply emits_append | apply emits_ret].
Qed.

Lemma gigabytes_emits bytes :
  ∃ x, emits (alerts self) (gigabytes bytes) (Returned x) [].
Proof.
  eexists. intros h. unfold gigabytes, bind, lift, ret.
  rewrite truediv_gigabyte. by rewrite extend_nil.
Qed.

Lemma usage_of_partition_emits partition acc :
  ∃ o, emits (alerts self) (usage_of_partition self w partition acc) o
         (usage_alerts_of self w partition).
Proof.
  unfold usage_of_partition, usage_alerts_of, emits, try_except, bind, lift, truediv.
  destruct (psutil_disk_usage w _) as [usage|e].
  - destruct (psutil.total usage =? 0).
    + eexists. intros h. by rewrite extend_nil.
    + destruct (gigabytes_emits (psutil.total usage)) as [t Ht].
      destruct (gigabytes_emits (psutil.used usage)) as [u Hu].
      destruct (gigabytes_emits (psutil.free usage)) as [f Hf].
      eexists. intros h. rewrite Ht, Hu, Hf, !extend_nil.
      rewrite check_usage_emits. reflexivity.
  - destruct (decide (e = PermissionError)) as [->|Hne].
    + eexists. intros h. unfold ret. by rewrite extend_nil.
    + exists (Raised e). intros h. rewrite extend_nil. by destruct e.
Qed.

Lemma get_disk_usage_emits :
  ∃ o us, emits (alerts self) (get_disk_usage self w) o us ∧
          (raises o = false -> us = usage_alerts self w).
Proof. apply for_emits, usage_of_partition_emits. Qed.

Lemma check_temperature_emits sensor_name temp :
  emits (alerts self) (check_temperature self sensor_name temp) (Returned tt)
    (if float_gt_int temp (temp_threshold self)
     then [TemperatureAlert sensor_name temp (temp_threshold self)] else []).
Proof.
  unfold check_temperature. destruct (float_gt_int _ _);
    [apply emits_append | apply emits_ret].
Qed.

Lemma temperatures_of_group_emits group acc :
  ∃ acc', emits (alerts self) (temperatures_of_group self group acc) (Returned acc')
            (flat_map (temperature_alerts_of self)
               (if storage_relevant group.1 then map (pair group.1) group.2 else [])).
Proof.
  destruct group as [sensor_name sensor_list]. unfold temperatures_of_group. simpl.
  destruct (storage_relevant sensor_name); [|eexists; apply emits_ret].
  rewrite flat_map_concat_map, map_map, <- flat_map_concat_map.
  apply for_emits_total. intros sensor acc'. eexists. intros h.
  unfold temperature_of_sensor, temperature_alerts_of, bind, ret.
  by rewrite check_temperature_emits.
Qed.

Lemma flat_map_flat_map {A B C} (f : A -> list B) (g : B -> list C) (xs : list A) :
  flat_map g (flat_map f xs) = flat_map (λ x, flat_map g (f x)) xs.
Proof.
  induction xs as [|x xs IH]; simpl; [done|].
  by rewrite flat_map_app, IH.
Qed.

Lemma get_drive_temperatures_emits :
  ∃ temperatures,
    emits (alerts self) (get_drive_temperatures self w) (Returned temperatures)
      (temperature_alerts self w).
Proof.
  unfold get_drive_temperatures, temperature_alerts.
  destruct (psutil_sensors_temperatures w) as [sensors|e].
  - destruct sensors as [|group sensors].
    + eexists. apply emits_try_returned.
      eapply (emits_bind_returned _ _ _ _ [] _ []); [apply emits_lift | apply emits_ret].
    + unfold qualifying. rewrite flat_map_flat_map.
      destruct (for_emits_total (alerts self) (temperatures_of_group self) _
                  (group :: sensors) temperatures_of_group_emits []) as [t Ht].
      exists t. apply emits_try_returned.
      eapply (emits_bind_returned _ _ _ _ [] _ _); [apply emits_lift | apply Ht].
  - eexists. eapply (emits_try_caught _ _ _ _ _ [] _ []); [|done|apply emits_ret].
    apply emits_bind_raised, emits_lift.
Qed.

Lemma check_smart_data_emits drive_path :
  ∃ v, emits (alerts self) (check_smart_data self w drive_path) (Returned v)
         (smart_alerts_of_path w drive_path).
Proof.
  unfold check_smart_data, smart_alerts_of_path, smartctl, check_smart_status, verdict,
    emits, try_except, bind, lift, ret, append_alert.
  destruct (subprocess_run w _) as [result|e];
    [|eexists; intros h; rewrite extend_nil; by destruct e].
  destruct (subprocess.returncode result =? 0);
    [|eexists; intros h; by rewrite extend_nil].
  destruct (json_loads w _) as [smart_data|e];
    [|eexists; intros h; rewrite extend_nil; by destruct e].
  destruct (json_in "smart_status" smart_data) as [[|]|e];
    [| eexists; intros h; by rewrite extend_nil
     | eexists; intros h; rewrite extend_nil; by destruct e].
  destruct (json_getitem smart_data "smart_status") as [smart_status|e];
    [|eexists; intros h; rewrite extend_nil; by destruct e].
  destruct (json_getitem smart_status "passed") as [health_status|e];
    [|eexists; intros h; rewrite extend_nil; by destruct e].
  destruct (truthy health_status); eexists; intros h;
    [by rewrite extend_nil | by rewrite append_extend].
Qed.

Lemma smart_of_device_emits device acc :
  ∃ acc', emits (alerts self) (smart_of_device self w device acc) (Returned acc')
            (smart_alerts_of w device).
Proof.
  unfold smart_of_device, smart_alerts_of.
  destruct (device_path_of_returns device) as [path ->].
  destruct (check_smart_data_emits path) as [v Hv].
  eexists. intros h. unfold bind, lift, ret. by rewrite Hv.
Qed.

Lemma smart_loop_emits devices acc :
  ∃ smart_data,
    emits (alerts self) (for_ devices (smart_of_device self w) acc)
      (Returned smart_data) (smart_alerts w devices).
Proof. apply for_emits_total, smart_of_device_emits. Qed.

(** The alerts a run appends, spelled out. *)
Lemma run_full_check_alerts h r h' :
  allocated h (alerts self) ->
  run_full_check self w h = (Returned r, h') ->
  read h' (alerts self)
  = read h (alerts self) ++ usage_alerts self w ++ temperature_alerts self w
      ++ smart_alerts w (keys (HealthReport.disk_usage r)) ∧
  Forall (of_category Usage) (usage_alerts self w) ∧
  Forall (of_category Temperature) (temperature_alerts self w) ∧
  Forall (of_category Smart) (smart_alerts w (keys (HealthReport.disk_usage r))).
Proof.
  intros Hl Hrun.
  destruct (run_full_check_appends _ _ _ _ _ Hl Hrun)
    as (us & ts & ss & Hu & Ht & Hs & HU & HT & HS & _ & -> & _).
  destruct get_disk_usage_emits as (o & us' & Hu' & Hus).
  destruct (emits_functional _ _ _ _ _ _ Hu Hu') as [<- <-].
  destruct get_drive_temperatures_emits as (t & Ht').
  destruct (emits_functional _ _ _ _ _ _ Ht Ht') as [_ ->].
  destruct (smart_loop_emits (keys (HealthReport.disk_usage r)) []) as (sd & Hs').
  destruct (emits_functional _ _ _ _ _ _ Hs Hs') as [_ ->].
  by rewrite Hus in *.
Qed.

End Alerts.

Lemma in_collection_order_ranks xs :
  in_collection_order xs ->
  ∀ i j a b, (i < j)%nat -> xs !! i = Some a -> xs !! j = Some b ->
             (rank a <= rank b)%nat.
Proof.
  intros (us & ts & ss & -> & HU & HT & HS) i j a b Hij Ha Hb.
  rewrite Forall_lookup in HU, HT, HS. unfold of_category, rank in *.
  apply lookup_app_Some in Ha as [Ha|[Hi Ha]];
    [|apply lookup_app_Some in Ha as [Ha|[Hi' Ha]]];
    (apply lookup_app_Some in Hb as [Hb|[Hj Hb]];
       [|apply lookup_app_Some in Hb as [Hb|[Hj' Hb]]]);
    repeat match goal with
           | H : ?l !! _ = Some ?x, HF : ∀ i x, ?l !! i = Some x -> _ |- _ =>
               pose proof (lookup_lt_Some _ _ _ H); apply HF in H as ->
           end;
    lia.
Qed.

(** The constructor makes a new, empty list and never raises. *)
Lemma init_spec temp usage (h : store alert) :
  ∃ self h',
    __init__ temp usage h = (Returned self, h') ∧
    temp_threshold self = temp ∧ usage_threshold self = usage ∧
    ¬ allocated h (alerts self) ∧
    allocated h' (alerts self) ∧ read h' (alerts self) = [] ∧
    ∀ l, allocated h l -> allocated h' l ∧ read h' l = read h l.
Proof.
  unfold __init__. pose proof (alloc_spec h) as Ha.
  destruct (alloc h) as [l h']. destruct Ha as (? & ? & ? & ?).
  eexists _, _. split; [done|]. simpl. repeat split; try done; by apply H2.
Qed.

(** C9, as it holds.  In every run that returns a report, the monitor's list
    afterwards is what it held before the run followed by the alerts the
    run raised, in emission order: one usage alert per partition above the
    usage threshold, in the order of the partitions; then one temperature
    alert per qualifying reading above the temperature threshold, in the
    order of the readings; then one SMART alert per device of [disk_usage]
    whose verdict is a failure, in the order of the devices.  Nothing is
    dropped or merged, also when several alerts concern one device.  For a
    monitor whose list was empty before the run, the assembled list is
    therefore in collection order. *)
Theorem alerts_in_emission_order (self : SSDHealthMonitor) (w : world) h r h' :
  allocated h (alerts self) ->
  run_full_check self w h = (Returned r, h') ->
  let us := usage_alerts self w in
  let ts := temperature_alerts self w in
  let ss := smart_alerts w (keys (HealthReport.disk_usage r)) in
  read h' (HealthReport.alerts r) = read h (alerts self) ++ us ++ ts ++ ss ∧
  Forall (of_category Usage) us ∧
  Forall (of_category Temperature) ts ∧
  Forall (of_category Smart) ss ∧
  (read h (alerts self) = [] -> in_collection_order (read h' (HealthReport.alerts r))).
Proof.
  intros Hl Hrun us ts ss.
  destruct (run_full_check_report _ _ _ _ _ Hrun) as [-> _].
  destruct (run_full_check_alerts _ _ _ _ _ Hl Hrun) as (Hread & HU & HT & HS).
  fold us ts ss in Hread, HU, HT, HS.
  split_and!; try done.
  intros Hnil. rewrite Hread, Hnil. by exists us, ts, ss.
Qed.


(** ** Thresholds *)

Lemma pos_pow_1_l p : (1 ^ p)%positive = 1%positive.
Proof.
  apply Pos2Z.inj. rewrite Pos2Z.inj_pow. apply Z.pow_1_l. lia.
Qed.

Lemma pow2_Q e :
  (2 ^ e)%Q =
  match e with
  | Z0 => 1%Q
  | Zpos p => (2 ^ Zpos p # 1)%Q
  | Zneg p => (1 # 2 ^ p)%Q
  end.
Proof.
  destruct e as [|p|p]; simpl; [done| |].
  - by rewrite Qpower_decomp_positive, pos_pow_1_l.
  - rewrite Qpower_decomp_positive, pos_pow_1_l.
    rewrite <- Pos2Z.inj_pow. reflexivity.
Qed.

(** The order between an integer and a finite float, in integers. *)
Lemma Qlt_finite n sm e :
  (inject_Z n < inject_Z sm * 2 ^ e)%Q <->
  if 0 <=? e then n < sm * 2 ^ e else n * 2 ^ (- e) < sm.
Proof.
  rewrite pow2_Q. unfold Qlt. destruct e as [|p|p]; simpl.
  - lia.
  - by rewrite Pos.mul_1_r, !Z.mul_1_r.
  - rewrite Pos.mul_1_l, Pos2Z.inj_pow, !Z.mul_1_r. done.
Qed.

Lemma Qeq_finite n sm e :
  (inject_Z sm * 2 ^ e == inject_Z n)%Q <->
  if 0 <=? e then n = sm * 2 ^ e else n * 2 ^ (- e) = sm.
Proof.
  rewrite pow2_Q. unfold Qeq. destruct e as [|p|p]; simpl.
  - lia.
  - rewrite !Z.mul_1_r. split; congruence.
  - rewrite Pos.mul_1_l, Pos2Z.inj_pow, !Z.mul_1_r.
    change (- Z.neg p) with (Z.pos p). split; congruence.
Qed.

Lemma float_gt_int_exceeds x n : float_gt_int x n = true <-> exceeds x n.
Proof.
  destruct x as [s|s| |s m e]; simpl.
  - rewrite Z.ltb_lt. split.
    + intros Hn. exists 0%Q. split; [done|]. unfold Qlt. simpl. lia.
    + intros (q & [= <-] & Hq). unfold Qlt in Hq. simpl in Hq. lia.
  - by destruct s.
  - done.
  - transitivity (inject_Z n < inject_Z (significand s m) * 2 ^ e)%Q.
    + rewrite Qlt_finite. destruct (0 <=? e); apply Z.ltb_lt.
    + split; [intros Hq; by eexists | by intros (q & [= <-] & Hq)].
Qed.







(** ** Instances of the statements on the sample hosts *)

(** The sample monitor is the one [main] builds in an empty store. *)
Lemma monitor_built : main_monitor [] = (Returned Sample.monitor, Sample.fresh).
Proof. reflexivity. Qed.

Lemma healthy_iff_no_alerts_witness :
  ∃ r h',
    run_full_check Sample.monitor Sample.failing_host Sample.fresh = (Returned r, h') ∧
    (HealthReport.healthy r = true <-> read h' (HealthReport.alerts r) = []).
Proof.
  eexists _, _. split; [vm_compute; reflexivity|].
  apply (healthy_iff_no_alerts Sample.monitor Sample.failing_host Sample.fresh).
  vm_compute. reflexivity.
Defined.

(** On the failing host the disk is mounted twice: both usage alerts are
    kept, although they are equal, and the list is in collection order. *)
Lemma alerts_in_emission_order_witness :
  ∃ r h' u t s,
    run_full_check Sample.monitor Sample.failing_host Sample.fresh = (Returned r, h') ∧
    read h' (HealthReport.alerts r) = [] ++ [u; u] ++ [t] ++ [s] ∧
    category_of u = Usage ∧ category_of t = Temperature ∧ category_of s = Smart ∧
    in_collection_order (read h' (HealthReport.alerts r)).
Proof.
  pose proof (alerts_in_emission_order Sample.monitor Sample.failing_host Sample.fresh)
    as H.
  eexists _, _, _, _, _. split; [vm_compute; reflexivity|].
  specialize (H _ _ ltac:(unfold allocated; simpl; lia) eq_refl).
  destruct H as (Hread & _ & _ & _ & Horder).
  split; [exact Hread|]. repeat split. by apply Horder.
Defined.

(** C9 as stated fails on a second run of the same monitor: the list then
    holds the first run's SMART alert before the second run's usage
    alerts. *)
Lemma second_run_breaks_collection_order :
  ∃ r1 h1 r2 h2,
    run_full_check Sample.monitor Sample.failing_host Sample.fresh = (Returned r1, h1) ∧
    run_full_check Sample.monitor Sample.failing_host h1 = (Returned r2, h2) ∧
    ¬ in_collection_order (read h2 (HealthReport.alerts r2)).
Proof.
  eexists _, _, _, _. split; [vm_compute; reflexivity|].
  split; [vm_compute; reflexivity|].
  intros H.
  pose proof (in_collection_order_ranks _ H 3 4 _ _ ltac:(lia) eq_refl eq_refl) as Hr.
  vm_compute in Hr. lia.
Qed.



(** ** Construction *)

(** C4, as it holds.  The constructor checks nothing: whatever the two
    thresholds are, also outside [0, 100], it returns a monitor that holds
    them as given, with a new empty alert list, and never raises. *)
Theorem construction_accepts_any_threshold temp usage (h : store alert) :
  ∃ self h',
    __init__ temp usage h = (Returned self, h') ∧
    temp_threshold self = temp ∧
    usage_threshold self = usage ∧
    read h' (alerts self) = [].
Proof.
  destruct (init_spec temp usage h) as (self & h' & ? & ? & ? & _ & _ & ? & _).
  by exists self, h'.
Qed.

(** C4 as stated fails: a usage threshold of 150 is accepted. *)
Lemma out_of_range_threshold_accepted :
  ¬ (∀ temp usage (h : store alert),
       ¬ (0 <= usage <= 100) -> raises (fst (__init__ temp usage h)) = true).
Proof.
  intros H. specialize (H default_temp_threshold 150 [] ltac:(lia)). discriminate.
Qed.

(** ** Volumes without capacity *)

(** A volume of size zero makes the loop body raise: the division comes
    before the entry is stored, and only [PermissionError] is caught. *)
Lemma zero_total_raises self w partition usage acc h :
  psutil_disk_usage w (psutil.mountpoint partition) = Returned usage ->
  psutil.total usage = 0 ->
  usage_of_partition self w partition acc h = (Raised ZeroDivisionError, h).
Proof.
  intros Hu Ht. unfold usage_of_partition, try_except, bind, lift.
  rewrite Hu. unfold truediv. by rewrite Ht.
Qed.

(** C2 on the code.  With a volume of size zero among the partitions, usage
    collection raises [ZeroDivisionError]: no usage dictionary comes back
    (neither the empty volume nor the disks before and after it are
    reported) and [run_full_check] raises as well. *)
Theorem zero_total_aborts_collection :
  get_disk_usage Sample.monitor EmptyVolume.host Sample.fresh
  = (Raised ZeroDivisionError, Sample.fresh) ∧
  run_full_check Sample.monitor EmptyVolume.host Sample.fresh
  = (Raised ZeroDivisionError, Sample.fresh).
Proof. split; vm_compute; reflexivity. Qed.

(** ** Temperature collection without sensors *)

Lemma temperatures_of_irrelevant self sensors acc h :
  qualifying sensors = [] ->
  for_ sensors (temperatures_of_group self) acc h = (Returned acc, h).
Proof.
  induction sensors as [|[sensor_name sensor_list] sensors IH]; intros Hq; [done|].
  unfold qualifying in Hq. simpl in Hq. apply app_eq_nil in Hq as [Hhd Htl].
  simpl. unfold bind, temperatures_of_group.
  destruct (storage_relevant sensor_name).
  - apply map_eq_nil in Hhd as ->. simpl. unfold ret. by apply IH.
  - unfold ret. by apply IH.
Qed.

(** C7. When the sensor subsystem is unavailable (the query raises), exposes
    no sensor at all, or exposes no reading that passes the storage keyword
    filter, temperature collection returns the empty dictionary, does not
    raise, and leaves the store untouched: no alert is appended. *)
Theorem no_sensor_no_temperature_alert (self : SSDHealthMonitor) (w : world) h :
  no_storage_sensor w ->
  get_drive_temperatures self w h = (Returned [], h).
Proof.
  intros Hw. unfold get_drive_temperatures, try_except, bind, lift.
  destruct Hw as [e He|He|sensors He Hq]; rewrite He; try done.
  destruct sensors as [|group sensors]; [done|].
  by rewrite temperatures_of_irrelevant.
Qed.

Lemma no_sensor_no_temperature_alert_witness :
  no_storage_sensor NoSensor.host ∧
  get_drive_temperatures Sample.monitor NoSensor.host Sample.fresh
  = (Returned [], Sample.fresh).
Proof.
  assert (no_storage_sensor NoSensor.host) as Hw
    by (eapply sensors_irrelevant; reflexivity).
  split; [exact Hw|].
  exact (no_sensor_no_temperature_alert Sample.monitor NoSensor.host Sample.fresh Hw).
Defined.

(** ** Device paths *)








(** ** SMART checks that cannot be carried out *)

Lemma check_smart_data_failure self w drive_path h :
  tool_failure w drive_path ->
  check_smart_data self w drive_path h = (Returned empty_dict, h).
Proof.
  intros Hf. unfold check_smart_data, try_except, bind, lift. fold (smartctl drive_path).
  destruct Hf as [Hr|Hr|result Hr Hc|result Hr Hc Hj]; rewrite Hr; try done.
  - apply Z.eqb_neq in Hc. by rewrite Hc.
  - rewrite Hc. simpl. by rewrite Hj.
Qed.

Lemma dict_get_set_eq {V} k (v : V) d : dict_get k (dict_set k v d) = Some v.
Proof.
  induction d as [|[k' v'] d IH]; simpl.
  - by rewrite String.eqb_refl.
  - destruct (String.eqb k k') eqn:E; simpl; rewrite ?String.eqb_refl, ?E; done.
Qed.

Lemma dict_get_set_ne {V} k k' (v : V) d :
  k ≠ k' -> dict_get k (dict_set k' v d) = dict_get k d.
Proof.
  intros Hne. induction d as [|[k'' v''] d IH]; simpl.
  - apply String.eqb_neq in Hne. by rewrite Hne.
  - destruct (String.eqb k' k'') eqn:E; simpl.
    + apply String.eqb_eq in E as <-. apply String.eqb_neq in Hne. by rewrite Hne.
    + by rewrite IH.
Qed.

(** The loop over the devices never stops early: it returns, and its
    dictionary has, for every device of the list, what [check_smart_data]
    returned for the path of that device. *)
Lemma smart_loop_checks_all self w devices :
  ∀ acc h, ∃ smart_data h',
    for_ devices (smart_of_device self w) acc h = (Returned smart_data, h') ∧
    ∀ device,
      (device ∈ devices ->
       ∃ path v h1,
         device_path_of device = Returned path ∧
         fst (check_smart_data self w path h1) = Returned v ∧
         dict_get device smart_data = Some v) ∧
      (device ∉ devices -> dict_get device smart_data = dict_get device acc).
Proof.
  induction devices as [|d devices IH]; intros acc h.
  - exists acc, h. split; [done|]. intros device. split; [|done].
    intros Hin. by apply elem_of_nil in Hin.
  - destruct (device_path_of_returns d) as [path Hpath].
    destruct (check_smart_data_writer self w path) as (v & xs & Hv & _).
    assert (smart_of_device self w d acc h
            = (Returned (dict_set d v acc), extend h (alerts self) xs)) as Hstep.
    { unfold smart_of_device, bind, lift, ret. by rewrite Hpath, Hv. }
    simpl. unfold bind at 1. rewrite Hstep.
    destruct (IH (dict_set d v acc) (extend h (alerts self) xs))
      as (smart_data & h' & Hloop & Hall).
    exists smart_data, h'. split; [exact Hloop|]. intros device. split.
    + intros Hin. destruct (decide (device ∈ devices)) as [Hin'|Hout].
      * by apply Hall.
      * apply elem_of_cons in Hin as [->|Hin]; [|done].
        exists path, v, h. split; [done|]. split; [by rewrite Hv|].
        rewrite (proj2 (Hall d)) by done. apply dict_get_set_eq.
    + intros Hout. apply not_elem_of_cons in Hout as [Hne Hout].
      rewrite (proj2 (Hall device)) by done. by apply dict_get_set_ne.
Qed.

(** C5.  When the utility is absent, times out, exits with a non-zero code
    or prints something that is not JSON, the SMART check returns the empty
    dictionary, which has no pass/fail flag (unlike a payload that says
    "failed"), appends no alert and does not raise.  And whatever happens
    for one device, a run that got past usage collection has an entry in
    [smart_data] for every device of [disk_usage], holding what the check of
    that device returned. *)
Theorem smart_failure_is_indeterminate (self : SSDHealthMonitor) (w : world)
    (drive_path : text) h :
  tool_failure w drive_path ->
  check_smart_data self w drive_path h = (Returned empty_dict, h) ∧
  verdict empty_dict = None ∧
  verdict (JDict [("smart_status", JDict [("passed", JBool false)])]) = Some false ∧
  ∀ h0 r h',
    run_full_check self w h0 = (Returned r, h') ->
    ∀ device, device ∈ keys (HealthReport.disk_usage r) ->
      ∃ path v,
        device_path_of device = Returned path ∧
        dict_get device (HealthReport.smart_data r) = Some v ∧
        (∃ h1, fst (check_smart_data self w path h1) = Returned v) ∧
        (path = drive_path -> v = empty_dict).
Proof.
  intros Hf. split; [by apply check_smart_data_failure|].
  do 2 (split; [reflexivity|]).
  intros h0 r h' Hrun device Hin.
  destruct (run_full_check_spec self w) as (o & us & _ & _ & Hspec).
  destruct o as [disk_usage|e]; [|rewrite Hspec in Hrun; discriminate].
  destruct Hspec as (? & ts & smart_data & ss & _ & _ & Hs & _ & Hspec).
  rewrite Hspec in Hrun. injection Hrun as <- <-. simpl in *.
  destruct (smart_loop_checks_all self w (keys disk_usage) [] h0)
    as (sd & h1 & Hloop & Hall).
  rewrite Hs in Hloop. injection Hloop as <- _.
  destruct (Hall device) as [(path & v & h2 & Hpath & Hv & Hget) _]; [done|].
  exists path, v. split_and!; try done.
  - by exists h2.
  - intros ->. rewrite check_smart_data_failure in Hv by done. by injection Hv.
Qed.

Lemma smart_failure_is_indeterminate_witness :
  tool_failure FlakyTool.host "/dev/sda1" ∧
  check_smart_data Sample.monitor FlakyTool.host "/dev/sda1" Sample.fresh
  = (Returned empty_dict, Sample.fresh) ∧
  ∃ r h',
    run_full_check Sample.monitor FlakyTool.host Sample.fresh = (Returned r, h') ∧
    HealthReport.smart_data r
    = [("/dev/sda1"%string, empty_dict); ("/dev/sdb1"%string, FlakyTool.failing_payload)] ∧
    read h' (HealthReport.alerts r) = [SmartAlert "/dev/sdb1"].
Proof.
  assert (tool_failure FlakyTool.host "/dev/sda1") as Hf
    by (apply tool_timed_out; reflexivity).
  destruct (smart_failure_is_indeterminate Sample.monitor FlakyTool.host "/dev/sda1"
              Sample.fresh Hf) as (Hcheck & _).
  split; [exact Hf|]. split; [exact Hcheck|].
  eexists _, _. split; [vm_compute; reflexivity|]. split; reflexivity.
Defined.

(** ** Gigabytes *)

Lemma digits2_pos_bounds p :
  2 ^ (Z.pos (digits2_pos p) - 1) <= Z.pos p < 2 ^ Z.pos (digits2_pos p).
Proof.
  induction p as [p IH|p IH|]; simpl digits2_pos.
  - rewrite Pos2Z.inj_succ. replace (Z.succ (Z.pos (digits2_pos p)) - 1)
      with (Z.succ (Z.pos (digits2_pos p) - 1)) by lia.
    rewrite !Z.pow_succ_r by lia. lia.
  - rewrite Pos2Z.inj_succ. replace (Z.succ (Z.pos (digits2_pos p)) - 1)
      with (Z.succ (Z.pos (digits2_pos p) - 1)) by lia.
    rewrite !Z.pow_succ_r by lia. lia.
  - simpl. lia.
Qed.

Lemma digits2_pos_le p n :
  0 <= n -> Z.pos p < 2 ^ n -> Z.pos (digits2_pos p) <= n.
Proof.
  intros Hn Hp. destruct (digits2_pos_bounds p) as [Hlo _].
  destruct (Z_lt_le_dec n (Z.pos (digits2_pos p))) as [Hlt|]; [|done].
  assert (2 ^ n <= 2 ^ (Z.pos (digits2_pos p) - 1)) by (apply Z.pow_le_mono_r; lia).
  lia.
Qed.

Lemma iter_xO_spec k p :
  Z.pos (Pos.iter xO p k) = Z.pos p * 2 ^ Z.pos k ∧
  digits2_pos (Pos.iter xO p k) = (digits2_pos p + k)%positive.
Proof.
  induction k as [|k IH] using Pos.peano_ind.
  - simpl. split; [lia|]. by rewrite Pos.add_1_r.
  - rewrite Pos.iter_succ. destruct IH as [IH1 IH2]. split.
    + rewrite Pos2Z.inj_xO, IH1, Pos2Z.inj_succ, Z.pow_succ_r by lia. lia.
    + simpl. rewrite IH2. lia.
Qed.

Lemma fexp_normal d : -1021 <= d -> fexp prec emax d = d - 53.
Proof. intros Hd. unfold fexp, emin, prec, emax. lia. Qed.

(** A significand below [2^53] shifted left until it has 53 bits. *)
Lemma normalize_small p :
  Z.pos p < 2 ^ 53 ->
  ∃ m, digits2_pos m = 53%positive ∧
       Z.pos m = Z.pos p * 2 ^ (53 - Z.pos (digits2_pos p)).
Proof.
  intros Hp. pose proof (digits2_pos_le p 53 ltac:(lia) Hp) as Hd.
  destruct (53 - Z.pos (digits2_pos p)) as [|k|k] eqn:Hk; [| |lia].
  - exists p. split; lia.
  - destruct (iter_xO_spec k p) as [Hv Hdig].
    exists (Pos.iter xO p k). split; [lia | done].
Qed.

Lemma exact_gigabyte : exact (1024 ^ 3) = S754_finite false 1073741824 0.
Proof. reflexivity. Qed.

Lemma div_eucl_exact a b q : 0 < b -> a = q * b -> Z.div_eucl a b = (q, 0).
Proof.
  intros Hb ->.
  pose proof (Z.div_mul q b ltac:(lia)) as Hq.
  pose proof (Z.mod_mul q b ltac:(lia)) as Hr.
  unfold Z.div, Z.modulo in Hq, Hr.
  destruct (Z.div_eucl (q * b) b) as [q' r']. by subst.
Qed.

Lemma div_core_gigabyte p m :
  Z.pos p < 2 ^ 53 ->
  Z.pos m = Z.pos p * 2 ^ (53 - Z.pos (digits2_pos p)) ->
  SFdiv_core_binary prec emax (Z.pos p) 0 (Z.pos 1073741824) 0
  = (Z.pos (xO m), Z.pos (digits2_pos p) - 84, loc_Exact).
Proof.
  intros Hp Hm. pose proof (digits2_pos_le p 53 ltac:(lia) Hp) as Hd.
  unfold SFdiv_core_binary.
  change (Zdigits2 (Z.pos 1073741824)) with 31.
  change (Zdigits2 (Z.pos p)) with (Z.pos (digits2_pos p)).
  cbv zeta.
  replace (Z.min (fexp prec emax (Z.pos (digits2_pos p) + 0 - (31 + 0))) (0 - 0))
    with (Z.pos (digits2_pos p) - 84) by (rewrite fexp_normal; lia).
  replace (0 - 0 - (Z.pos (digits2_pos p) - 84)) with (84 - Z.pos (digits2_pos p)) by lia.
  destruct (84 - Z.pos (digits2_pos p)) as [|k|k] eqn:Hk; [lia| |lia].
  rewrite (div_eucl_exact _ _ (Z.pos (xO m))); [done | lia |].
  rewrite Z.shiftl_mul_pow2, (Pos2Z.inj_xO m), Hm by lia.
  replace (Z.pos k) with (1 + (53 - Z.pos (digits2_pos p)) + 30) by lia.
  rewrite !Z.pow_add_r by lia. lia.
Qed.

(** A byte count below [2^53] divided by [1024**3]: the quotient is exact. *)
Lemma gigabyte_division p m :
  Z.pos p < 2 ^ 53 ->
  digits2_pos m = 53%positive ->
  Z.pos m = Z.pos p * 2 ^ (53 - Z.pos (digits2_pos p)) ->
  SFdiv prec emax (S754_finite false p 0) (S754_finite false 1073741824 0)
  = S754_finite false m (Z.pos (digits2_pos p) - 83).
Proof.
  intros Hp Hm Hv. pose proof (digits2_pos_le p 53 ltac:(lia) Hp) as Hd.
  unfold SFdiv. rewrite (div_core_gigabyte p m) by done.
  set (e := Z.pos (digits2_pos p) - 84).
  cbv beta iota. unfold binary_round_aux, shr_fexp.
  change (Zdigits2 (Z.pos m~0)) with (Z.pos (Pos.succ (digits2_pos m))).
  rewrite Hm.
  replace (fexp prec emax (Z.pos (Pos.succ 53) + e) - e) with 1
    by (rewrite fexp_normal; lia).
  change (shr (shr_record_of_loc (Z.pos m~0) loc_Exact) e 1)
    with ({| shr_m := Z.pos m; shr_r := false; shr_s := false |}, e + 1).
  cbv beta iota.
  change (round_nearest_even _ _) with (Z.pos m).
  change (Zdigits2 (Z.pos m)) with (Z.pos (digits2_pos m)). rewrite Hm.
  replace (fexp prec emax (53 + (e + 1)) - (e + 1)) with 0
    by (rewrite fexp_normal; lia).
  simpl. replace (e + 1 <=? emax - prec) with true
    by (symmetry; apply Z.leb_le; unfold emax, prec; lia).
  f_equal. lia.
Qed.

(** *** Rounding a quotient: the error of [SFdiv] on two integers *)

Lemma shr_1_m mrs : 0 <= shr_m mrs -> shr_m (shr_1 mrs) = shr_m mrs / 2.
Proof.
  destruct mrs as [m r s]. simpl. intros Hm.
  destruct m as [|[p|p|]|p]; simpl shr_m; [reflexivity| | |reflexivity|lia].
  - apply Z.div_unique with 1; lia.
  - apply Z.div_unique with 0; lia.
Qed.

Lemma shr_m_of_loc m l : shr_m (shr_record_of_loc m l) = m.
Proof. by destruct l as [|[]]. Qed.

Lemma round_nearest_even_bounds m l :
  m <= round_nearest_even m l <= m + 1.
Proof.
  destruct l as [|[]]; simpl; try lia. destruct (Z.even m); lia.
Qed.

Lemma digits2_pos_53_54 p :
  2 ^ 52 <= Z.pos p < 2 ^ 54 ->
  (digits2_pos p = 53%positive ∧ Z.pos p < 2 ^ 53) ∨
  (digits2_pos p = 54%positive ∧ 2 ^ 53 <= Z.pos p).
Proof.
  intros [Hlo Hhi]. destruct (digits2_pos_bounds p) as [Hd1 Hd2].
  pose proof (digits2_pos_le p 54 ltac:(lia) Hhi) as Hle.
  assert (53 <= Z.pos (digits2_pos p)) as Hge.
  { destruct (Z_lt_le_dec (Z.pos (digits2_pos p)) 53) as [Hlt|]; [|done].
    assert (2 ^ Z.pos (digits2_pos p) <= 2 ^ 52) by (apply Z.pow_le_mono_r; lia). lia. }
  assert (Z.pos (digits2_pos p) = 53 ∨ Z.pos (digits2_pos p) = 54) as [Hd|Hd] by lia.
  - left. rewrite Hd in Hd2. split; [lia | done].
  - right. rewrite Hd in Hd1. split; [lia | done].
Qed.

(** The first shift of [binary_round_aux] on a significand of 53 or 54
    bits: at most one bit is dropped. *)
Lemma shr_fexp_first p e l :
  2 ^ 52 <= Z.pos p < 2 ^ 54 -> -1074 <= e ->
  ∃ mrs n,
    shr_fexp prec emax (Z.pos p) e l = (mrs, e + n) ∧ (n = 0 ∨ n = 1) ∧
    2 ^ 52 <= shr_m mrs < 2 ^ 53 ∧
    shr_m mrs * 2 ^ n <= Z.pos p < (shr_m mrs + 1) * 2 ^ n.
Proof.
  intros Hp He. unfold shr_fexp.
  change (Zdigits2 (Z.pos p)) with (Z.pos (digits2_pos p)).
  destruct (digits2_pos_53_54 p Hp) as [[Hd Hlt]|[Hd Hge]]; rewrite Hd.
  - replace (fexp prec emax (53 + e) - e) with 0 by (rewrite fexp_normal; lia).
    exists (shr_record_of_loc (Z.pos p) l), 0. rewrite Z.add_0_r, shr_m_of_loc.
    split; [done|]. split; [by left|]. lia.
  - replace (fexp prec emax (54 + e) - e) with 1 by (rewrite fexp_normal; lia).
    exists (shr_1 (shr_record_of_loc (Z.pos p) l)), 1.
    split; [done|]. split; [by right|].
    rewrite shr_1_m, shr_m_of_loc by (rewrite shr_m_of_loc; lia).
    pose proof (Z.div_mod (Z.pos p) 2 ltac:(lia)).
    pose proof (Z.mod_pos_bound (Z.pos p) 2 ltac:(lia)).
    change (2 ^ 1) with 2. lia.
Qed.

(** The second shift, after rounding: the value is kept. *)
Lemma shr_fexp_second s m e :
  2 ^ 52 <= m <= 2 ^ 53 -> -1074 <= e -> e + 1 <= 971 ->
  ∃ pm E,
    (let '(mrs, e') := shr_fexp prec emax m e loc_Exact in
     match shr_m mrs with
     | Z0 => S754_zero s
     | Zpos m' => if e' <=? emax - prec then S754_finite s m' e' else S754_infinity s
     | Zneg _ => S754_nan
     end) = S754_finite s pm E ∧
    (E = e ∨ E = e + 1) ∧ Z.pos pm * 2 ^ (E - e) = m ∧ 2 ^ 52 <= Z.pos pm < 2 ^ 53.
Proof.
  intros Hm He He'. destruct m as [|p|p]; [lia| |lia].
  unfold shr_fexp. change (Zdigits2 (Z.pos p)) with (Z.pos (digits2_pos p)).
  destruct (digits2_pos_53_54 p ltac:(lia)) as [[Hd Hlt]|[Hd Hge]]; rewrite Hd.
  - replace (fexp prec emax (53 + e) - e) with 0 by (rewrite fexp_normal; lia).
    simpl shr. cbv beta iota. simpl shr_m.
    replace (e <=? emax - prec) with true
      by (symmetry; apply Z.leb_le; unfold emax, prec; lia).
    exists p, e. rewrite Z.sub_diag. split; [done|]. split; [by left|]. lia.
  - replace (fexp prec emax (54 + e) - e) with 1 by (rewrite fexp_normal; lia).
    assert (Z.pos p = 2 ^ 53) as Hp by lia.
    assert (p = 9007199254740992%positive) as -> by lia.
    simpl shr. cbv beta iota. simpl shr_m.
    replace (e + 1 <=? emax - prec) with true
      by (symmetry; apply Z.leb_le; unfold emax, prec; lia).
    eexists _, (e + 1). split; [done|]. split; [by right|].
    replace (e + 1 - e) with 1 by lia. split; [reflexivity | lia].
Qed.

(** [binary_round_aux] on a significand of 53 or 54 bits: the result is
    finite and at most two units of the input away. *)
Lemma binary_round_aux_bound s p e l :
  2 ^ 52 <= Z.pos p < 2 ^ 54 -> -1074 <= e -> e + 2 <= 971 ->
  ∃ pm E,
    binary_round_aux prec emax s (Z.pos p) e l = S754_finite s pm E ∧
    e <= E <= e + 2 ∧ 2 ^ 52 <= Z.pos pm < 2 ^ 53 ∧
    Z.pos pm * 2 ^ (E - e) - 2 <= Z.pos p ∧
    Z.pos p + 1 <= Z.pos pm * 2 ^ (E - e) + 2.
Proof.
  intros Hp He He'. unfold binary_round_aux.
  destruct (shr_fexp_first p e l Hp He) as (mrs & n & -> & Hn & HM & Hq).
  pose proof (round_nearest_even_bounds (shr_m mrs) (loc_of_shr_record mrs)) as Hr.
  set (m2 := round_nearest_even (shr_m mrs) (loc_of_shr_record mrs)) in *.
  destruct (shr_fexp_second s m2 (e + n) ltac:(lia) ltac:(lia) ltac:(lia))
    as (pm & E & -> & HE & Hv & Hpm).
  exists pm, E. split; [done|]. split; [lia|]. split; [done|].
  assert (Z.pos pm * 2 ^ (E - e) = m2 * 2 ^ n) as ->.
  { replace (E - e) with (E - (e + n) + n) by lia.
    rewrite Z.pow_add_r by lia. by rewrite Z.mul_assoc, Hv. }
  destruct Hn as [-> | ->]; [change (2 ^ 0) with 1 in * | change (2 ^ 1) with 2 in *]; lia.
Qed.

(** Dividing one positive integer by another, when the quotient is below
    [2^53]: the result is a normal float, less than two units of [2^(d-53)]
    away from the quotient, where [d] is the difference of the bit lengths. *)
Lemma SFdiv_integers (s : bool) (p q0 : positive) :
  let d := Z.pos (digits2_pos p) - Z.pos (digits2_pos q0) in
  -900 <= d < 53 ->
  ∃ pm E,
    SFdiv prec emax (S754_finite s p 0) (S754_finite false q0 0) = S754_finite s pm E ∧
    d - 53 <= E <= d - 51 ∧ 2 ^ 52 <= Z.pos pm < 2 ^ 53 ∧
    (Z.pos pm * 2 ^ (E - (d - 53)) - 2) * Z.pos q0 <= Z.pos p * 2 ^ (53 - d) ∧
    Z.pos p * 2 ^ (53 - d) < (Z.pos pm * 2 ^ (E - (d - 53)) + 2) * Z.pos q0.
Proof.
  intros d Hd. unfold SFdiv, SFdiv_core_binary.
  change (Zdigits2 (Z.pos p)) with (Z.pos (digits2_pos p)).
  change (Zdigits2 (Z.pos q0)) with (Z.pos (digits2_pos q0)).
  cbv zeta.
  replace (Z.min (fexp prec emax (Z.pos (digits2_pos p) + 0 - (Z.pos (digits2_pos q0) + 0)))
             (0 - 0)) with (d - 53)
    by (rewrite fexp_normal; unfold d; lia).
  replace (0 - 0 - (d - 53)) with (53 - d) by lia.
  destruct (53 - d) as [|k|k] eqn:Hk; [lia| |lia].
  rewrite Z.shiftl_mul_pow2 by lia.
  destruct (digits2_pos_bounds p) as [Hp1 Hp2].
  destruct (digits2_pos_bounds q0) as [Hq1 Hq2].
  set (d2 := Z.pos (digits2_pos q0)) in *.
  assert (2 ^ d2 = 2 * 2 ^ (d2 - 1)) as Hd2.
  { replace d2 with (Z.succ (d2 - 1)) at 1 by lia. rewrite Z.pow_succ_r; lia. }
  assert (Z.pos (digits2_pos p) - 1 + Z.pos k = 52 + d2) as He1 by (unfold d in Hk; lia).
  assert (2 ^ 52 * 2 ^ d2 <= Z.pos p * 2 ^ Z.pos k < 2 ^ 53 * 2 ^ d2) as Hm.
  { rewrite <- !Z.pow_add_r by lia.
    assert (0 < 2 ^ Z.pos k) by (apply Z.pow_pos_nonneg; lia).
    split.
    - rewrite <- He1, Z.pow_add_r by lia. nia.
    - replace (53 + d2) with (Z.pos (digits2_pos p) + Z.pos k) by lia.
      rewrite Z.pow_add_r by lia. nia. }
  pose proof (Z_div_mod (Z.pos p * 2 ^ Z.pos k) (Z.pos q0) ltac:(lia)) as Hdiv.
  destruct (Z.div_eucl (Z.pos p * 2 ^ Z.pos k) (Z.pos q0)) as [q r].
  destruct Hdiv as [Hqr Hr].
  assert (0 < 2 ^ (d2 - 1)) as Hpos by (apply Z.pow_pos_nonneg; lia).
  assert (2 ^ 52 <= q < 2 ^ 54) as Hq.
  { change (2 ^ 52) with 4503599627370496 in *.
    change (2 ^ 53) with 9007199254740992 in *.
    change (2 ^ 54) with 18014398509481984 in *. split; nia. }
  destruct q as [|pq|pq]; [lia| |lia].
  replace (xorb s false) with s by (by destruct s).
  destruct (binary_round_aux_bound s pq (d - 53) (new_location (Z.pos q0) r)
              Hq ltac:(lia) ltac:(lia)) as (pm & E & Hround & HE & Hpm & Hlo & Hhi).
  exists pm, E. split; [done|]. split; [lia|]. split; [done|]. nia.
Qed.

Lemma div_half_even_scale n d k :
  0 < d -> 0 < k -> div_half_even (n * k) (d * k) = div_half_even n d.
Proof.
  intros Hd Hk. unfold div_half_even.
  rewrite Z.div_mul_cancel_r, Z.mul_mod_distr_r by lia.
  replace (2 * (n mod d * k)) with (2 * (n mod d) * k) by lia.
  by rewrite <- Zmult_compare_compat_r by lia.
Qed.

(** Rounding to the nearest integer is off by at most one half. *)
Lemma div_half_even_bound n d :
  0 < d -> - d <= 2 * n - 2 * div_half_even n d * d <= d.
Proof.
  intros Hd. unfold div_half_even.
  pose proof (Z.div_mod n d ltac:(lia)) as Hn.
  pose proof (Z.mod_pos_bound n d Hd) as Hr.
  destruct (2 * (n mod d) ?= d) eqn:Hc.
  - apply Z.compare_eq in Hc. destruct (Z.even (n / d)); nia.
  - rewrite Z.compare_lt_iff in Hc. nia.
  - rewrite Z.compare_gt_iff in Hc. nia.
Qed.

Lemma gigabytes_value bytes h :
  0 <= bytes < 2 ^ 53 ->
  gigabytes bytes h = (Returned (hundredths (centigigabytes bytes)), h).
Proof.
  intros Hb. unfold gigabytes, bind, lift, ret. rewrite truediv_gigabyte.
  do 2 f_equal. destruct bytes as [|p|p]; [reflexivity| |lia].
  destruct (normalize_small p) as (m & Hm & Hv); [lia|].
  pose proof (digits2_pos_le p 53 ltac:(lia) ltac:(lia)) as Hd.
  rewrite exact_gigabyte. simpl exact. rewrite (gigabyte_division p m) by (done || lia).
  unfold round. set (e := Z.pos (digits2_pos p) - 83).
  replace (0 <=? e) with false by (symmetry; apply Z.leb_gt; lia).
  unfold hundredths, centigigabytes. f_equal. simpl significand.
  rewrite Hv. replace (- e) with (30 + (53 - Z.pos (digits2_pos p))) by lia.
  rewrite Z.pow_add_r by lia.
  replace (Z.pos p * 2 ^ (53 - Z.pos (digits2_pos p)) * 10 ^ 2)
    with (Z.pos p * 10 ^ 2 * 2 ^ (53 - Z.pos (digits2_pos p))) by lia.
  change (1024 ^ 3) with (2 ^ 30).
  apply div_half_even_scale; [lia|]. apply Z.pow_pos_nonneg; lia.
Qed.

(** A size of up to [2^64] bytes in gigabytes: [round(bytes / 1024**3, 2)]
    is the float closest to a number of hundredths, and this number is the
    byte count scaled to hundredths of a gigabyte and rounded, up to the
    rounding of the division. *)
Lemma gigabyte_rounding bytes :
  0 <= bytes < 2 ^ 64 ->
  ∃ c, round (SFdiv prec emax (exact bytes) (exact (1024 ^ 3))) 2 = hundredths c ∧
       0 <= c < 2 ^ 41 ∧
       - (2 ^ 30 + 409600) <= 2 ^ 31 * c - 200 * bytes <= 2 ^ 30 + 409600.
Proof.
  intros Hb. destruct bytes as [|p|p]; [| |lia].
  { exists 0. split; [reflexivity|]. change (2 ^ 41) with 2199023255552.
    change (2 ^ 30) with 1073741824. lia. }
  pose proof (digits2_pos_le p 64 ltac:(lia) ltac:(lia)) as Hd1.
  assert (1 <= Z.pos (digits2_pos p)) as Hd0 by lia.
  destruct (SFdiv_integers false p 1073741824) as (pm & E & Hdiv & HE & Hpm & Hlo & Hhi).
  { change (Z.pos (digits2_pos 1073741824)) with 31. lia. }
  change (Z.pos (digits2_pos 1073741824)) with 31 in *.
  set (d := Z.pos (digits2_pos p) - 31) in *.
  rewrite exact_gigabyte. simpl exact. rewrite Hdiv.
  unfold round. replace (0 <=? E) with false by (symmetry; apply Z.leb_gt; lia).
  simpl significand.
  set (c := div_half_even (Z.pos pm * 10 ^ 2) (2 ^ (- E))).
  exists c. split; [reflexivity|].
  assert (0 < 2 ^ (- E)) as HD by (apply Z.pow_pos_nonneg; lia).
  pose proof (div_half_even_bound (Z.pos pm * 10 ^ 2) (2 ^ (- E)) HD) as Hc.
  fold c in Hc. change (10 ^ 2) with 100 in Hc.
  assert (2 ^ (- E) * 2 ^ (E - (d - 53)) = 2 ^ (53 - d)) as HK.
  { rewrite <- Z.pow_add_r by lia. f_equal. lia. }
  assert (2 ^ 20 <= 2 ^ (53 - d)) as HK20 by (apply Z.pow_le_mono_r; lia).
  assert (0 < 2 ^ (E - (d - 53))) as HJ by (apply Z.pow_pos_nonneg; lia).
  set (D := 2 ^ (- E)) in *. set (J := 2 ^ (E - (d - 53))) in *.
  set (K := 2 ^ (53 - d)) in *.
  change (2 ^ 20) with 1048576 in HK20. change (2 ^ 30) with 1073741824.
  change (2 ^ 31) with 2147483648. change (2 ^ 41) with 2199023255552.
  change (2 ^ 64) with 18446744073709551616 in Hb.
  assert (- (K * 1073741824) <= 200 * (Z.pos pm * J) * 1073741824 - 2147483648 * c * K
          <= K * 1073741824) as H1.
  { rewrite <- HK.
    replace (200 * (Z.pos pm * J) * 1073741824 - 2147483648 * c * (D * J))
      with ((2 * (Z.pos pm * 100) - 2 * c * D) * (J * 1073741824)) by ring.
    replace (D * J * 1073741824) with (D * (J * 1073741824)) by ring.
    assert (0 < J * 1073741824) by lia. nia. }
  assert (- (K * 1073741824 + 429496729600) <= (2147483648 * c - 200 * Z.pos p) * K
          <= K * 1073741824 + 429496729600) as H2 by lia.
  assert (- (1073741824 + 409600) <= 2147483648 * c - 200 * Z.pos p <= 1073741824 + 409600)
    as H3 by nia.
  split; [lia | done].
Qed.

Lemma gigabytes_hundredths bytes :
  0 <= bytes < 2 ^ 64 ->
  ∃ c, (∀ h, gigabytes bytes h = (Returned (hundredths c), h)) ∧
       0 <= c < 2 ^ 41 ∧
       - (2 ^ 30 + 409600) <= 2 ^ 31 * c - 200 * bytes <= 2 ^ 30 + 409600.
Proof.
  intros Hb. destruct (gigabyte_rounding bytes Hb) as (c & Hc & Hrange & Hbound).
  exists c. split; [|done]. intros h.
  unfold gigabytes, bind, lift, ret. by rewrite truediv_gigabyte, Hc.
Qed.

(** *** The value of a float and of a number of hundredths *)

Lemma Qpow2_inject k : 0 <= k -> (inject_Z (2 ^ k) == 2 ^ k)%Q.
Proof. intros Hk. by rewrite Zpower_Qpower. Qed.

(** A finite float scaled to an integer. *)
Lemma finite_value_scaled m E k :
  0 <= k -> 0 <= E + k ->
  (inject_Z m * 2 ^ E * inject_Z (2 ^ k) == inject_Z (m * 2 ^ (E + k)))%Q.
Proof.
  intros Hk HEk. rewrite inject_Z_mult, !Qpow2_inject by lia.
  rewrite Qpower_plus by done. ring.
Qed.

Lemma hundredths_value c :
  0 <= c < 2 ^ 41 ->
  ∃ v : Q,
    float_value (hundredths c) = Some v ∧
    (inject_Z c / 100 - (1 # 262144) <= v <= inject_Z c / 100 + (1 # 262144))%Q.
Proof.
  intros Hc. destruct c as [|pc|pc]; [| |lia].
  { exists 0%Q. split; [reflexivity|]. split; vm_compute; discriminate. }
  pose proof (digits2_pos_le pc 41 ltac:(lia) ltac:(lia)) as Hd1.
  assert (1 <= Z.pos (digits2_pos pc)) as Hd0 by lia.
  destruct (SFdiv_integers false pc 100) as (pm & E & Hdiv & HE & Hpm & Hlo & Hhi).
  { change (Z.pos (digits2_pos 100)) with 7. lia. }
  change (Z.pos (digits2_pos 100)) with 7 in *.
  set (d := Z.pos (digits2_pos pc) - 7) in *.
  unfold hundredths, nearest_decimal. change (exact (10 ^ 2)) with (S754_finite false 100 0).
  simpl exact. rewrite Hdiv. simpl float_value. simpl significand.
  eexists. split; [reflexivity|].
  assert (2 ^ 19 <= 2 ^ (53 - d)) as HK19 by (apply Z.pow_le_mono_r; lia).
  pose proof (finite_value_scaled (Z.pos pm) E (53 - d) ltac:(lia) ltac:(lia)) as Hv.
  replace (E + (53 - d)) with (E - (d - 53)) in Hv by lia.
  set (J := 2 ^ (E - (d - 53))) in *. set (K := 2 ^ (53 - d)) in *.
  change (2 ^ 19) with 524288 in HK19. clearbody J K.
  assert (0 < inject_Z K)%Q as HKpos.
  { change 0%Q with (inject_Z 0). rewrite <- Zlt_Qlt. lia. }
  assert (524288 <= inject_Z K)%Q as HKq.
  { change 524288%Q with (inject_Z 524288). rewrite <- Zle_Qle. lia. }
  assert (100 * inject_Z (Z.pos pm * J) <= inject_Z (Z.pos pc) * inject_Z K + 200)%Q as Hq1.
  { rewrite <- inject_Z_mult. change 100%Q with (inject_Z 100).
    change 200%Q with (inject_Z 200).
    rewrite <- inject_Z_mult, <- inject_Z_plus, <- Zle_Qle. lia. }
  assert (inject_Z (Z.pos pc) * inject_Z K <= 100 * inject_Z (Z.pos pm * J) + 200)%Q as Hq2.
  { rewrite <- inject_Z_mult. change 100%Q with (inject_Z 100).
    change 200%Q with (inject_Z 200).
    rewrite <- inject_Z_mult, <- inject_Z_plus, <- Zle_Qle. lia. }
  set (v := (inject_Z (Z.pos pm) * 2 ^ E)%Q) in *.
  unfold Qdiv. change (/ 100)%Q with (1 # 100)%Q.
  split.
  - apply (Qmult_le_r _ _ (inject_Z K) HKpos). rewrite Hv. lra.
  - apply (Qmult_le_r _ _ (inject_Z K) HKpos). rewrite Hv. lra.
Qed.

(** Three sizes in hundredths that add up within one hundredth give a
    reading that adds up. *)
Lemma hundredths_add_up mount percent used free total :
  0 <= used < 2 ^ 41 -> 0 <= free < 2 ^ 41 -> 0 <= total < 2 ^ 41 ->
  -1 <= used + free - total <= 1 ->
  adds_up {| mountpoint := mount;
             total_gb := hundredths total;
             used_gb := hundredths used;
             free_gb := hundredths free;
             percent_used := percent |}.
Proof.
  intros Hu Hf Ht Hsum.
  destruct (hundredths_value used Hu) as (u & Hvu & Hu1 & Hu2).
  destruct (hundredths_value free Hf) as (f & Hvf & Hf1 & Hf2).
  destruct (hundredths_value total Ht) as (t & Hvt & Ht1 & Ht2).
  exists used, free, total. simpl. split_and!; try done; try lia.
  exists u, f, t. split_and!; try done.
  - assert (-1 <= inject_Z used + inject_Z free - inject_Z total)%Q as Hq.
    { change (-1)%Q with (inject_Z (-1)). unfold Qminus.
      rewrite <- inject_Z_opp, <- !inject_Z_plus, <- Zle_Qle. lia. }
    unfold Qdiv in *. change (/ 100)%Q with (1 # 100)%Q in *. lra.
  - assert (inject_Z used + inject_Z free - inject_Z total <= 1)%Q as Hq.
    { change 1%Q with (inject_Z 1). unfold Qminus.
      rewrite <- inject_Z_opp, <- !inject_Z_plus, <- Zle_Qle. lia. }
    unfold Qdiv in *. change (/ 100)%Q with (1 # 100)%Q in *. lra.
Qed.

Lemma dict_get_set_inv {V} k k' (v r : V) d :
  dict_get k (dict_set k' v d) = Some r -> r = v ∨ dict_get k d = Some r.
Proof.
  destruct (decide (k = k')) as [->|Hne].
  - rewrite dict_get_set_eq. intros [= ->]. by left.
  - rewrite dict_get_set_ne by done. by right.
Qed.

(** One pass of the loop either leaves the dictionary alone (permission
    denied) or stores a reading whose sizes add up if the byte counts do. *)
Lemma usage_of_partition_adds_up self w partition acc h disk_usage h' :
  usage_of_partition self w partition acc h = (Returned disk_usage, h') ->
  disk_usage = acc ∨
  ∃ usage reading,
    psutil_disk_usage w (psutil.mountpoint partition) = Returned usage ∧
    psutil.total usage ≠ 0 ∧
    disk_usage = dict_set (psutil.device partition) reading acc ∧
    (consistent usage -> adds_up reading).
Proof.
  unfold usage_of_partition, try_except, bind at 1, lift.
  destruct (psutil_disk_usage w _) as [usage|e] eqn:Hu.
  - unfold bind at 1. unfold truediv at 1.
    destruct (psutil.total usage =? 0) eqn:Hz; [intros [=]|].
    apply Z.eqb_neq in Hz.
    unfold bind, gigabytes, bind, lift, ret. rewrite !truediv_gigabyte.
    unfold check_usage, append_alert, ret.
    intros Hrun. right. eexists usage, _. split; [done|]. split; [done|]. split.
    + destruct (float_gt_int _ _); by injection Hrun as <- _.
    + intros (Hused & Hfree & Hsum & Htotal).
      change (S754_finite false (1024 * (1024 * (1024 * 1))) 0) with (exact (1024 ^ 3)).
      destruct (gigabyte_rounding (psutil.total usage)) as (t & -> & Htr & Htb); [lia|].
      destruct (gigabyte_rounding (psutil.used usage)) as (u & -> & Hur & Hub); [lia|].
      destruct (gigabyte_rounding (psutil.free usage)) as (f & -> & Hfr & Hfb); [lia|].
      apply hundredths_add_up; try done.
      change (2 ^ 30) with 1073741824 in *. change (2 ^ 31) with 2147483648 in *. lia.
  - destruct e; intros [= <- <-]. by left.
Qed.

Lemma usage_loop_adds_up self w device partitions :
  ∀ acc h disk_usage h',
    (∀ partition usage,
       partition ∈ partitions -> psutil.device partition = device ->
       psutil_disk_usage w (psutil.mountpoint partition) = Returned usage ->
       consistent usage) ->
    (∀ reading, dict_get device acc = Some reading -> adds_up reading) ->
    for_ partitions (usage_of_partition self w) acc h = (Returned disk_usage, h') ->
    ∀ reading, dict_get device disk_usage = Some reading -> adds_up reading.
Proof.
  induction partitions as [|partition partitions IH];
    intros acc h disk_usage h' Hc Hacc Hrun.
  - by injection Hrun as <- _.
  - simpl in Hrun. unfold bind at 1 in Hrun.
    destruct (usage_of_partition self w partition acc h) as [[acc'|e] h1] eqn:Hstep;
      [|discriminate].
    apply (IH acc' h1 disk_usage h'); [| |done].
    + intros p u Hp. apply Hc. by right.
    + apply usage_of_partition_adds_up in Hstep
        as [->|(usage & reading & Hu & _ & -> & Hr)]; [done|].
      intros r Hget. destruct (decide (device = psutil.device partition)) as [->|Hne].
      * rewrite dict_get_set_eq in Hget. injection Hget as <-.
        apply Hr. apply (Hc partition); [by left | done | done].
      * rewrite dict_get_set_ne in Hget by done. by apply Hacc.
Qed.

(** C8, as it holds.  Take a volume of a report whose byte counts, as the
    host gives them for the partitions of its device, are not negative, are
    below [2^64] and satisfy [used + free = total].  Its three sizes are
    each the float closest to a two-decimal number; as two-decimal numbers,
    [used_gb + free_gb] is within one hundredth of [total_gb]; and as
    floats, [used_gb + free_gb] and [total_gb] are at most 0.0101 apart.
    Every reported volume has [total > 0]: a volume of size zero leaves no
    report at all. *)
Theorem reported_sizes_add_up (self : SSDHealthMonitor) (w : world) h r h'
    (device : string) (reading : VolumeReading) :
  run_full_check self w h = (Returned r, h') ->
  dict_get device (HealthReport.disk_usage r) = Some reading ->
  (∀ partition usage,
     partition ∈ psutil_disk_partitions w -> psutil.device partition = device ->
     psutil_disk_usage w (psutil.mountpoint partition) = Returned usage ->
     consistent usage) ->
  adds_up reading.
Proof.
  intros Hrun Hget Hc.
  destruct (run_full_check_spec self w) as (o & us & Hu & _ & Hspec).
  destruct o as [disk_usage|e]; [|rewrite Hspec in Hrun; discriminate].
  destruct Hspec as (? & ts & ? & ss & _ & _ & _ & _ & Hspec).
  rewrite Hspec in Hrun. injection Hrun as <- _. simpl in Hget.
  eapply (usage_loop_adds_up self w device _ [] h); [done | done | apply Hu | done].
Qed.

(** One hundredth is reached: 69.9 MB used and 37.7 MB free are reported as
    0.07 and 0.04 gigabytes, their total of 107.6 MB as 0.10. *)
Example one_hundredth_apart :
  centigigabytes 69900000 = 7 ∧ centigigabytes 37700000 = 4 ∧
  centigigabytes (69900000 + 37700000) = 10.
Proof. repeat split. Qed.

(** C8 as stated fails, by the representation error of the floats.  On this
    volume the byte counts add up, yet the floats reported for 0.07 and
    0.04 exceed the float reported for 0.10 by more than one hundredth:
    by 1441151880758559 / 144115188075855872 as real numbers, and also
    when [used_gb + free_gb - total_gb] is evaluated in floating point and
    compared with [0.01]. *)
Lemma tolerance_exceeded :
  ∃ r h' usage reading u f t,
    run_full_check Sample.monitor SmallVolume.host Sample.fresh = (Returned r, h') ∧
    psutil_disk_usage SmallVolume.host "/mnt/stick" = Returned usage ∧
    0 < psutil.total usage ∧
    psutil.used usage + psutil.free usage = psutil.total usage ∧
    dict_get "/dev/sdb1" (HealthReport.disk_usage r) = Some reading ∧
    float_value (used_gb reading) = Some u ∧
    float_value (free_gb reading) = Some f ∧
    float_value (total_gb reading) = Some t ∧
    (u + f - t == 1441151880758559 # 144115188075855872)%Q ∧
    (1 # 100 < u + f - t)%Q ∧
    SFltb (hundredths 1)
      (SFsub prec emax (SFadd prec emax (used_gb reading) (free_gb reading))
         (total_gb reading)) = true.
Proof.
  eexists _, _, _, _, _, _, _.
  split; [vm_compute; reflexivity|]. split; [reflexivity|].
  split; [reflexivity|]. split; [reflexivity|]. split; [reflexivity|].
  split; [reflexivity|]. split; [reflexivity|]. split; [reflexivity|].
  split; [reflexivity|]. split; reflexivity.
Qed.

Lemma reported_sizes_add_up_witness :
  ∃ r h' reading,
    run_full_check Sample.monitor Sample.failing_host Sample.fresh = (Returned r, h') ∧
    dict_get "/dev/sda1" (HealthReport.disk_usage r) = Some reading ∧
    adds_up reading.
Proof.
  eexists _, _, _. split; [vm_compute; reflexivity|]. split; [reflexivity|].
  apply (reported_sizes_add_up Sample.monitor Sample.failing_host Sample.fresh _ _
           "/dev/sda1" _ eq_refl eq_refl).
  intros partition usage _ _ [= <-]. unfold consistent. simpl. lia.
Defined.

(** * Further properties of the collectors *)

(** ** Usage collection: denied, failing and repeated partitions *)

Lemma usage_of_denied self w partition acc h :
  denied w partition = true ->
  usage_of_partition self w partition acc h = (Returned acc, h).
Proof.
  unfold denied, usage_of_partition, try_except, bind, lift.
  destruct (psutil_disk_usage w _) as [usage|e]; [done|]. by destruct e.
Qed.

(** X1.  Partitions whose usage query is refused with [PermissionError] are
    skipped and nothing else: usage collection gives the same dictionary,
    the same outcome and the same alerts as on the host without them. *)
Theorem denied_partitions_are_skipped (self : SSDHealthMonitor) (w : world) h :
  get_disk_usage self w h
  = get_disk_usage self
      (with_partitions w (List.filter (λ p, negb (denied w p)) (psutil_disk_partitions w)))
      h.
Proof.
  unfold get_disk_usage. simpl psutil_disk_partitions.
  change (usage_of_partition self (with_partitions w _)) with (usage_of_partition self w).
  generalize (@nil (string * VolumeReading)) as acc. revert h.
  induction (psutil_disk_partitions w) as [|partition partitions IH]; intros h acc; [done|].
  simpl. destruct (denied w partition) eqn:Hd; simpl.
  - unfold bind at 1. rewrite usage_of_denied by done. apply IH.
  - unfold bind. destruct (usage_of_partition self w partition acc h) as [[acc'|e] h1];
      [apply IH | done].
Qed.

Lemma usage_of_partition_raises self w partition acc h e h' :
  usage_of_partition self w partition acc h = (Raised e, h') ->
  breaks_collection w partition e.
Proof.
  unfold usage_of_partition, try_except, bind at 1, lift.
  destruct (psutil_disk_usage w _) as [usage|e'] eqn:Hu.
  - unfold bind at 1, truediv at 1.
    destruct (psutil.total usage =? 0) eqn:Hz.
    + intros Hr. injection Hr as He _. rewrite <- He. right. split; [done|].
      exists usage. split; [done|]. by apply Z.eqb_eq.
    + unfold bind, gigabytes, lift, ret. rewrite !truediv_gigabyte.
      unfold check_usage, append_alert, ret. destruct (float_gt_int _ _); discriminate.
  - intros Hr. left. destruct e'; try discriminate Hr;
      injection Hr as He _; rewrite <- He; done.
Qed.

Lemma usage_loop_raises self w partitions :
  ∀ acc h e h',
    for_ partitions (usage_of_partition self w) acc h = (Raised e, h') ->
    ∃ partition, partition ∈ partitions ∧ breaks_collection w partition e.
Proof.
  induction partitions as [|partition partitions IH]; intros acc h e h' Hrun; [done|].
  simpl in Hrun. unfold bind at 1 in Hrun.
  destruct (usage_of_partition self w partition acc h) as [[acc'|e'] h1] eqn:Hstep.
  - destruct (IH _ _ _ _ Hrun) as (p & Hp & Hb). exists p. split; [by right | done].
  - injection Hrun as <- <-. exists partition. split; [by left|].
    by eapply usage_of_partition_raises.
Qed.

(** X2.  When usage collection raises, the whole run raises the same
    exception and leaves the same store: neither temperature collection nor
    any SMART check is carried out and no report is built.  The store holds
    what it held plus usage alerts only, and the exception comes from a
    partition whose query raised something other than [PermissionError] or
    whose volume has size zero. *)
Theorem usage_failure_aborts_run (self : SSDHealthMonitor) (w : world) h e h' :
  get_disk_usage self w h = (Raised e, h') ->
  run_full_check self w h = (Raised e, h') ∧
  (∃ us, h' = extend h (alerts self) us ∧ Forall (of_category Usage) us) ∧
  ∃ partition,
    partition ∈ psutil_disk_partitions w ∧ breaks_collection w partition e.
Proof.
  intros Hrun.
  destruct (run_full_check_spec self w) as (o & us & Hu & HU & Hspec).
  rewrite Hu in Hrun. injection Hrun as -> <-.
  split_and!; [apply Hspec | by exists us |].
  eapply (usage_loop_raises self w _ [] h). apply (Hu h).
Qed.

Lemma usage_failure_aborts_run_witness :
  ∃ h',
    get_disk_usage Sample.monitor BrokenDisk.host Sample.fresh = (Raised OSError, h') ∧
    run_full_check Sample.monitor BrokenDisk.host Sample.fresh = (Raised OSError, h') ∧
    length (read h' (alerts Sample.monitor)) = 1%nat.
Proof.
  eexists. split; [vm_compute; reflexivity|].
  split; [|reflexivity].
  apply (usage_failure_aborts_run Sample.monitor BrokenDisk.host Sample.fresh).
  reflexivity.
Defined.

Lemma keys_dict_set {V} k (v : V) d :
  keys (dict_set k v d) = if decide (k ∈ keys d) then keys d else keys d ++ [k].
Proof.
  induction d as [|[k' v'] d IH]; simpl; [done|].
  destruct (String.eqb k k') eqn:E.
  - apply String.eqb_eq in E as ->. simpl.
    destruct (decide (k' ∈ k' :: keys d)) as [|Hn]; [done|].
    exfalso. apply Hn. by left.
  - apply String.eqb_neq in E. simpl. rewrite IH. unfold keys.
    destruct (decide (k ∈ map fst d)) as [Hin|Hout];
      destruct (decide (k ∈ k' :: map fst d)) as [Hin'|Hout']; try done.
    + exfalso. apply Hout'. by right.
    + apply elem_of_cons in Hin' as [->|]; done.
Qed.

Lemma NoDup_keys_dict_set {V} k (v : V) d :
  NoDup (keys d) -> NoDup (keys (dict_set k v d)).
Proof.
  intros Hd. rewrite keys_dict_set. destruct (decide (k ∈ keys d)); [done|].
  apply NoDup_app. split_and!; [done | | apply NoDup_singleton].
  intros x Hx Hk. apply list_elem_of_singleton in Hk as ->. done.
Qed.

Lemma elem_of_keys_dict_set {V} k k' (v : V) d :
  k' ∈ keys (dict_set k v d) <-> k' = k ∨ k' ∈ keys d.
Proof.
  rewrite keys_dict_set. destruct (decide (k ∈ keys d)) as [Hin|Hout].
  - split; [by right | by intros [->|]].
  - rewrite elem_of_app, list_elem_of_singleton. tauto.
Qed.

(** What one pass of the usage loop does to the dictionary when it returns. *)
Lemma usage_of_partition_returns self w partition acc h disk_usage h' :
  usage_of_partition self w partition acc h = (Returned disk_usage, h') ->
  (denied w partition = true ∧ disk_usage = acc) ∨
  (answers w partition ∧
   ∃ reading, disk_usage = dict_set (psutil.device partition) reading acc ∧
              mountpoint reading = psutil.mountpoint partition).
Proof.
  unfold usage_of_partition, denied, answers, try_except, bind at 1, lift.
  destruct (psutil_disk_usage w _) as [usage|e] eqn:Hu.
  - unfold bind at 1, truediv at 1.
    destruct (psutil.total usage =? 0); [discriminate|].
    unfold gigabytes. rewrite !truediv_gigabyte.
    unfold check_usage, append_alert, bind, lift, ret. intros Hr. right.
    split; [by exists usage|].
    destruct (float_gt_int _ _); injection Hr as <- _; by eexists.
  - intros Hr. left. destruct e; try discriminate Hr. by injection Hr as <- _.
Qed.

Lemma usage_loop_keys self w partitions :
  ∀ acc h disk_usage h',
    for_ partitions (usage_of_partition self w) acc h = (Returned disk_usage, h') ->
    NoDup (keys acc) ->
    NoDup (keys disk_usage) ∧
    (∀ device,
       device ∈ keys disk_usage <->
       device ∈ keys acc ∨
       ∃ partition, partition ∈ partitions ∧ psutil.device partition = device ∧
                    answers w partition).
Proof.
  induction partitions as [|partition partitions IH]; intros acc h disk_usage h' Hrun Hnd.
  - injection Hrun as <- _. split; [done|].
    intros device. split; [by left|]. intros [|(p & Hp & _)]; [done|].
    by apply elem_of_nil in Hp.
  - simpl in Hrun. unfold bind at 1 in Hrun.
    destruct (usage_of_partition self w partition acc h) as [[acc'|e] h1] eqn:Hstep;
      [|discriminate].
    apply usage_of_partition_returns in Hstep
      as [[Hden ->]|(Hans & reading & -> & Hmp)].
    + destruct (IH _ _ _ _ Hrun Hnd) as (Hnd' & Hkeys). split; [done|].
      intros device. rewrite Hkeys. split.
      * intros [|(p & Hp & ?)]; [by left|]. right. exists p. split; [by right|done].
      * intros [|(p & Hp & Hdev & Ha)]; [by left|].
        apply elem_of_cons in Hp as [->|Hp]; [|right; by exists p].
        destruct Ha as [usage Hu]. unfold denied in Hden. by rewrite Hu in Hden.
    + destruct (IH _ _ _ _ Hrun (NoDup_keys_dict_set _ _ _ Hnd)) as (Hnd' & Hkeys).
      split; [done|].
      intros device. rewrite Hkeys, elem_of_keys_dict_set. split.
      * intros [[->|]|(p & Hp & ?)]; [|by left|].
        -- right. exists partition. split; [by left | done].
        -- right. exists p. split; [by right | done].
      * intros [|(p & Hp & Hdev & Ha)]; [left; by right|].
        apply elem_of_cons in Hp as [->|Hp]; [left; by left|].
        right. by exists p.
Qed.

(** The reading of a device comes from the last partition of the device
    that was not skipped. *)
Lemma usage_loop_last self w partitions :
  ∀ acc h disk_usage h' device reading,
    for_ partitions (usage_of_partition self w) acc h = (Returned disk_usage, h') ->
    dict_get device disk_usage = Some reading ->
    (dict_get device acc = Some reading ∧
     ∀ p, p ∈ partitions -> psutil.device p = device -> denied w p = true) ∨
    ∃ before partition after,
      partitions = before ++ partition :: after ∧
      psutil.device partition = device ∧ answers w partition ∧
      mountpoint reading = psutil.mountpoint partition ∧
      ∀ p, p ∈ after -> psutil.device p = device -> denied w p = true.
Proof.
  induction partitions as [|partition partitions IH];
    intros acc h disk_usage h' device reading Hrun Hget.
  - injection Hrun as <- _. left. split; [done|]. by intros p Hp%elem_of_nil.
  - simpl in Hrun. unfold bind at 1 in Hrun.
    destruct (usage_of_partition self w partition acc h) as [[acc'|e] h1] eqn:Hstep;
      [|discriminate].
    apply usage_of_partition_returns in Hstep
      as [[Hden ->]|(Hans & reading' & -> & Hmp)];
      (destruct (IH _ _ _ _ _ _ Hrun Hget)
         as [[Hacc Hrest]|(before & p & after & -> & Hdev & Ha & Hm & Hafter)];
       [|right; by exists (partition :: before), p, after]).
    + left. split; [done|]. intros p [->|Hp]%elem_of_cons; [done | by apply Hrest].
    + destruct (decide (device = psutil.device partition)) as [->|Hne].
      * rewrite dict_get_set_eq in Hacc. injection Hacc as <-.
        right. by exists [], partition, partitions.
      * rewrite dict_get_set_ne in Hacc by done. left. split; [done|].
        intros p [->|Hp]%elem_of_cons; [done | by apply Hrest].
Qed.

Lemma smart_of_device_returns self w device acc h :
  ∃ v h', smart_of_device self w device acc h = (Returned (dict_set device v acc), h').
Proof.
  destruct (device_path_of_returns device) as [path Hpath].
  destruct (check_smart_data_writer self w path) as (v & xs & Hv & _).
  exists v, (extend h (alerts self) xs).
  unfold smart_of_device, bind, lift, ret. by rewrite Hpath, Hv.
Qed.

Lemma smart_loop_keys self w devices :
  ∀ acc h smart_data h',
    for_ devices (smart_of_device self w) acc h = (Returned smart_data, h') ->
    NoDup (keys acc ++ devices) ->
    keys smart_data = keys acc ++ devices.
Proof.
  induction devices as [|device devices IH]; intros acc h smart_data h' Hrun Hnd.
  - injection Hrun as <- _. by rewrite app_nil_r.
  - simpl in Hrun. unfold bind at 1 in Hrun.
    destruct (smart_of_device_returns self w device acc h) as (v & h1 & Hstep).
    rewrite Hstep in Hrun.
    assert (device ∉ keys acc) as Hout.
    { apply NoDup_app in Hnd as (_ & Hdisj & _). intros Hin.
      apply (Hdisj _ Hin). by left. }
    assert (keys (dict_set device v acc) = keys acc ++ [device]) as Hkeys.
    { rewrite keys_dict_set. by destruct (decide (device ∈ keys acc)). }
    rewrite (IH _ _ _ _ Hrun); rewrite Hkeys, <- app_assoc; done.
Qed.

(** X3.  In every report the devices of [disk_usage] are pairwise distinct
    and are exactly the devices of the partitions whose usage query
    answered.  [smart_data] has the same keys as [disk_usage], in the same
    order: one SMART check per device, however often the device is
    mounted. *)
Theorem report_keys (self : SSDHealthMonitor) (w : world) h r h' :
  run_full_check self w h = (Returned r, h') ->
  NoDup (keys (HealthReport.disk_usage r)) ∧
  keys (HealthReport.smart_data r) = keys (HealthReport.disk_usage r) ∧
  (∀ device,
     device ∈ keys (HealthReport.disk_usage r) <->
     ∃ partition, partition ∈ psutil_disk_partitions w ∧
                  psutil.device partition = device ∧ answers w partition).
Proof.
  intros Hrun.
  destruct (run_full_check_spec self w) as (o & us & Hu & _ & Hspec).
  destruct o as [disk_usage|e]; [|rewrite Hspec in Hrun; discriminate].
  destruct Hspec as (? & ts & smart_data & ss & _ & _ & Hs & _ & Hspec).
  rewrite Hspec in Hrun. injection Hrun as <- _. simpl.
  destruct (usage_loop_keys self w _ [] h disk_usage _ (Hu h) (NoDup_nil_2))
    as (Hnd & Hkeys).
  split_and!; [done | |].
  - by apply (smart_loop_keys self w _ [] h _ _ (Hs h)).
  - intros device. rewrite Hkeys. split; [|by right].
    intros [Hin|]; [|done]. by apply elem_of_nil in Hin.
Qed.

Lemma report_keys_witness :
  ∃ r h',
    run_full_check Sample.monitor Sample.failing_host Sample.fresh = (Returned r, h') ∧
    keys (HealthReport.disk_usage r) = ["/dev/sda1"%string] ∧
    NoDup (keys (HealthReport.disk_usage r)) ∧
    keys (HealthReport.smart_data r) = keys (HealthReport.disk_usage r).
Proof.
  eexists _, _. split; [vm_compute; reflexivity|]. split; [reflexivity|].
  destruct (report_keys Sample.monitor Sample.failing_host Sample.fresh _ _ eq_refl)
    as (Hdistinct & Hsmart & _).
  split; [exact Hdistinct | exact Hsmart].
Defined.

(** X4.  When a device is mounted at several places, [disk_usage] keeps one
    entry for it, and the entry carries the mount point of the last of its
    partitions that was not skipped: the usage query of that partition
    answered, and every partition of the device listed after it was refused
    with [PermissionError]. *)
Theorem last_mount_wins (self : SSDHealthMonitor) (w : world) h r h' device reading :
  run_full_check self w h = (Returned r, h') ->
  dict_get device (HealthReport.disk_usage r) = Some reading ->
  ∃ before partition after,
    psutil_disk_partitions w = before ++ partition :: after ∧
    psutil.device partition = device ∧ answers w partition ∧
    mountpoint reading = psutil.mountpoint partition ∧
    ∀ p, p ∈ after -> psutil.device p = device -> denied w p = true.
Proof.
  intros Hrun Hget.
  destruct (run_full_check_spec self w) as (o & us & Hu & _ & Hspec).
  destruct o as [disk_usage|e]; [|rewrite Hspec in Hrun; discriminate].
  destruct Hspec as (? & ts & smart_data & ss & _ & _ & _ & _ & Hspec).
  rewrite Hspec in Hrun. injection Hrun as <- _. simpl in Hget.
  destruct (usage_loop_last self w _ [] h disk_usage _ _ _ (Hu h) Hget) as [[Hnil _]|]; done.
Qed.

Lemma last_mount_wins_witness :
  ∃ r h' reading,
    run_full_check Sample.monitor Sample.failing_host Sample.fresh = (Returned r, h') ∧
    dict_get "/dev/sda1" (HealthReport.disk_usage r) = Some reading ∧
    mountpoint reading = "/home"%string ∧
    ∃ before partition after,
      psutil_disk_partitions Sample.failing_host = before ++ partition :: after ∧
      psutil.device partition = "/dev/sda1"%string ∧
      answers Sample.failing_host partition ∧
      mountpoint reading = psutil.mountpoint partition ∧
      ∀ p, p ∈ after -> psutil.device p = "/dev/sda1"%string ->
           denied Sample.failing_host p = true.
Proof.
  eexists _, _, _. split; [vm_compute; reflexivity|]. split; [reflexivity|].
  split; [reflexivity|].
  apply (last_mount_wins Sample.monitor Sample.failing_host Sample.fresh _ _
           "/dev/sda1" _ eq_refl eq_refl).
Defined.

(** ** Temperature collection: what ends up in the dictionary *)

(** A loop that stores one entry per element. *)
Lemma dict_loop {A V} (body : A -> dict V -> M (dict V)) (key : A -> string)
    (val : A -> V) (xs : list A) :
  (∀ x acc h, ∃ h', body x acc h = (Returned (dict_set (key x) (val x) acc), h')) ->
  ∀ acc h, ∃ d h',
    for_ xs body acc h = (Returned d, h') ∧
    (NoDup (keys acc) -> NoDup (keys d)) ∧
    (∀ k, k ∈ keys d <-> k ∈ keys acc ∨ ∃ x, x ∈ xs ∧ key x = k) ∧
    (∀ k v, dict_get k d = Some v ->
            dict_get k acc = Some v ∨ ∃ x, x ∈ xs ∧ key x = k ∧ val x = v).
Proof.
  intros Hbody. induction xs as [|x xs IH]; intros acc h.
  - exists acc, h. split_and!; [done | done | | by left].
    intros k. split; [by left|]. intros [|(x & Hx & _)]; [done|].
    by apply elem_of_nil in Hx.
  - destruct (Hbody x acc h) as [h1 Hstep].
    destruct (IH (dict_set (key x) (val x) acc) h1) as (d & h' & Hrun & Hnd & Hkeys & Hget).
    exists d, h'. split_and!.
    + simpl. unfold bind. by rewrite Hstep.
    + intros Hacc. by apply Hnd, NoDup_keys_dict_set.
    + intros k. rewrite Hkeys, elem_of_keys_dict_set. split.
      * intros [[->|]|(y & Hy & ?)]; [|by left|].
        -- right. exists x. split; [by left | done].
        -- right. exists y. split; [by right | done].
      * intros [|(y & Hy & Hk)]; [left; by right|].
        apply elem_of_cons in Hy as [->|Hy]; [left; by left|].
        right. by exists y.
    + intros k v Hd. destruct (Hget _ _ Hd) as [Hacc|(y & Hy & ?)].
      * destruct (decide (k = key x)) as [->|Hne].
        -- rewrite dict_get_set_eq in Hacc. injection Hacc as <-.
           right. exists x. split; [by left | done].
        -- rewrite dict_get_set_ne in Hacc by done. by left.
      * right. exists y. split; [by right | done].
Qed.

Lemma for_app {A S} (xs ys : list A) (body : A -> S -> M S) acc h :
  for_ (xs ++ ys) body acc h = bind (for_ xs body acc) (for_ ys body) h.
Proof.
  revert acc h. induction xs as [|x xs IH]; intros acc h; [reflexivity|].
  simpl. unfold bind. destruct (body x acc h) as [[acc'|e] h1]; [|done].
  rewrite IH. done.
Qed.

(** The nested loops over groups and readings are one loop over the
    qualifying readings. *)
Lemma temperatures_flat self sensors :
  ∀ acc h,
    for_ sensors (temperatures_of_group self) acc h
    = for_ (qualifying sensors)
        (λ reading, temperature_of_sensor self reading.1 reading.2) acc h.
Proof.
  induction sensors as [|[sensor_name sensor_list] sensors IH]; intros acc h; [done|].
  unfold qualifying. simpl. rewrite for_app. unfold bind.
  unfold temperatures_of_group at 1. destruct (storage_relevant sensor_name).
  - assert (∀ l a h0,
      for_ (map (pair sensor_name) l)
        (λ reading, temperature_of_sensor self reading.1 reading.2) a h0
      = for_ l (temperature_of_sensor self sensor_name) a h0) as Hmap.
    { induction l as [|s l IHl]; intros a h0; [done|]. simpl. unfold bind.
      destruct (temperature_of_sensor self sensor_name s a h0) as [[a'|e] h1]; [|done].
      apply IHl. }
    rewrite Hmap.
    destruct (for_ sensor_list _ acc h) as [[acc'|e] h1]; [apply IH | done].
  - simpl. apply IH.
Qed.

Lemma temperature_of_sensor_returns self reading acc h :
  ∃ h', temperature_of_sensor self reading.1 reading.2 acc h
        = (Returned (dict_set (sensor_key reading) (psutil.current reading.2) acc), h').
Proof.
  unfold temperature_of_sensor, bind, ret, sensor_key.
  destruct (check_temperature_writer self reading.1 (psutil.current reading.2))
    as ([] & xs & Hc & _).
  rewrite Hc. by eexists.
Qed.

(** X5.  Temperature collection always returns, also when the sensor query
    raises.  Its dictionary has pairwise distinct keys, one for every
    reading of a group that passes the keyword filter, named group_label;
    readings of other groups never appear, and the value under a key is the
    current value of a qualifying reading with that key.  A query that
    raises counts as a host without readings. *)
Theorem temperatures_hold_the_storage_readings (self : SSDHealthMonitor) (w : world) h :
  ∃ temperatures h',
    get_drive_temperatures self w h = (Returned temperatures, h') ∧
    NoDup (keys temperatures) ∧
    (∀ key, key ∈ keys temperatures <->
            ∃ reading, reading ∈ storage_readings w ∧ sensor_key reading = key) ∧
    (∀ key temp,
       dict_get key temperatures = Some temp ->
       ∃ reading, reading ∈ storage_readings w ∧ sensor_key reading = key ∧
                  psutil.current reading.2 = temp).
Proof.
  destruct (dict_loop (λ reading, temperature_of_sensor self reading.1 reading.2)
              sensor_key (λ reading, psutil.current reading.2) (storage_readings w)
              (temperature_of_sensor_returns self) [] h)
    as (d & h' & Hrun & Hnd & Hkeys & Hget).
  exists d, h'. split_and!.
  - unfold get_drive_temperatures, try_except, bind, lift. unfold storage_readings in Hrun.
    destruct (psutil_sensors_temperatures w) as [sensors|e]; [|done].
    destruct sensors as [|group sensors]; [done|]. by rewrite temperatures_flat, Hrun.
  - apply Hnd, NoDup_nil_2.
  - intros key. rewrite Hkeys. split; [|by right].
    intros [Hin|]; [|done]. by apply elem_of_nil in Hin.
  - intros key temp Hd. by destruct (Hget _ _ Hd) as [|].
Qed.

(** ** The keyword filter *)

Lemma prefix_iff k s : String.prefix k s = true <-> ∃ b, s = k +:+ b.
Proof.
  revert s. induction k as [|c k IH]; intros s.
  - split; [intros _; by exists s | intros _; by destruct s].
  - destruct s as [|c' s]; [split; [done | by intros [b [=]]]|].
    change (String.prefix (String c k) (String c' s))
      with (if ascii_dec c c' then String.prefix k s else false).
    destruct (ascii_dec c c') as [<-|Hne].
    + rewrite IH. split; intros [b Hb]; exists b; [by rewrite Hb | by injection Hb].
    + split; [done|]. intros [b [= -> _]]. done.
Qed.

(** [sub in s] holds exactly when [s] is [sub] with something before and
    something after. *)
Lemma contains_iff s k : contains s k = true <-> ∃ a b, s = a +:+ k +:+ b.
Proof.
  induction s as [|c s IH].
  - change (contains "" k) with (if String.prefix k "" then true else false).
    destruct (String.prefix k "") eqn:Hp.
    + apply prefix_iff in Hp as [b Hb]. split; [intros _ | intros _; reflexivity].
      by exists ""%string, b.
    + split; [done|]. intros (a & b & Hab).
      destruct a; [|done]. simpl in Hab.
      assert (String.prefix k "" = true) by (apply prefix_iff; by exists b). congruence.
  - change (contains (String c s) k)
      with (if String.prefix k (String c s) then true else contains s k).
    destruct (String.prefix k (String c s)) eqn:Hp.
    + apply prefix_iff in Hp as [b Hb]. split; [intros _ | intros _; reflexivity].
      by exists ""%string, b.
    + rewrite IH. split.
      * intros (a & b & ->). by exists (String c a), b.
      * intros (a & b & Hab). destruct a as [|c' a].
        -- simpl in Hab.
           assert (String.prefix k (String c s) = true) by (apply prefix_iff; by exists b).
           congruence.
        -- injection Hab as -> ->. by exists a, b.
Qed.

Lemma lower_app a b : lower (a +:+ b) = lower a +:+ lower b.
Proof. induction a as [|c a IH]; simpl; [done | by rewrite IH]. Qed.

(** X6.  A sensor group passes the filter exactly when its lower-cased
    name has one of [nvme], [ssd], [sata], [drive] somewhere inside it.
    Hence a name that has a keyword inside it in any mix of letter cases
    passes, whatever surrounds the keyword. *)
Theorem filter_is_case_insensitive_substring (sensor_name : string) :
  (storage_relevant sensor_name = true <->
   ∃ keyword a b, keyword ∈ storage_keywords ∧
                  lower sensor_name = a +:+ keyword +:+ b) ∧
  (∀ keyword spelling a b,
     keyword ∈ storage_keywords -> lower spelling = keyword ->
     sensor_name = a +:+ spelling +:+ b -> storage_relevant sensor_name = true).
Proof.
  assert (storage_relevant sensor_name = true <->
          ∃ keyword a b, keyword ∈ storage_keywords ∧
                         lower sensor_name = a +:+ keyword +:+ b) as Hiff.
  { unfold storage_relevant. rewrite existsb_exists. split.
    - intros (keyword & Hin & Hc). apply contains_iff in Hc as (a & b & Hab).
      exists keyword, a, b. split; [by apply list_elem_of_In | done].
    - intros (keyword & a & b & Hin & Hab). exists keyword.
      split; [by apply list_elem_of_In|]. apply contains_iff. by exists a, b. }
  split; [done|].
  intros keyword spelling a b Hin Hlow ->. apply Hiff.
  exists keyword, (lower a), (lower b). split; [done|].
  by rewrite !lower_app, Hlow.
Qed.

Lemma filter_is_case_insensitive_substring_witness :
  storage_relevant "Samsung-NVMe-970" = true.
Proof.
  apply (filter_is_case_insensitive_substring "Samsung-NVMe-970")
    with (keyword := "nvme"%string) (spelling := "NVMe"%string)
         (a := "Samsung-"%string) (b := "-970"%string).
  - apply list_elem_of_In. simpl. auto.
  - reflexivity.
  - reflexivity.
Defined.

(** ** SMART checks that are carried out *)

(** X7.  When the utility exits with code zero and prints JSON, the check
    looks at the payload only.  A payload saying "failed" is returned
    and one SMART alert with the drive path is appended; a payload saying
    "passed", or one without a [smart_status] key, is returned and nothing
    is appended; any other payload (no [passed] entry, a [smart_status]
    that is no object, a document that is a bare number) is dropped: the
    check returns the empty dictionary and appends nothing. *)
Theorem smart_check_reads_the_payload (self : SSDHealthMonitor) (w : world)
    (drive_path : text) (result : subprocess.CompletedProcess) (payload : json) h :
  subprocess_run w (smartctl drive_path) = Returned result ->
  subprocess.returncode result = 0 ->
  json_loads w (subprocess.stdout result) = Returned payload ->
  check_smart_data self w drive_path h =
  match verdict payload with
  | Some false => (Returned payload, append h (alerts self) (SmartAlert drive_path))
  | Some true => (Returned payload, h)
  | None =>
      match json_in "smart_status" payload with
      | Returned false => (Returned payload, h)
      | _ => (Returned empty_dict, h)
      end
  end.
Proof.
  intros Hrun Hcode Hloads.
  unfold check_smart_data, try_except, bind at 1, lift. fold (smartctl drive_path).
  rewrite Hrun, Hcode. simpl. unfold bind at 1. rewrite Hloads.
  unfold check_smart_status, verdict, bind, lift, ret, append_alert.
  destruct (json_in "smart_status" payload) as [[|]|e]; [| done | by destruct e].
  destruct (json_getitem payload "smart_status") as [smart_status|e]; [|by destruct e].
  destruct (json_getitem smart_status "passed") as [health_status|e]; [|by destruct e].
  by destruct (truthy health_status).
Qed.

Lemma smart_check_reads_the_payload_witness :
  check_smart_data Sample.monitor FlakyTool.host "/dev/sdb1" Sample.fresh
  = (Returned FlakyTool.failing_payload, [[SmartAlert "/dev/sdb1"]]).
Proof.
  exact (smart_check_reads_the_payload Sample.monitor FlakyTool.host "/dev/sdb1"
           _ _ Sample.fresh eq_refl eq_refl eq_refl).
Defined.

(** ** What an alert means *)

Lemma elem_of_flat_map {A B} (f : A -> list B) (xs : list A) (b : B) :
  b ∈ flat_map f xs <-> ∃ x, x ∈ xs ∧ b ∈ f x.
Proof.
  rewrite list_elem_of_In, in_flat_map.
  split; intros (x & Hx & Hb); exists x; by rewrite ?list_elem_of_In in *.
Qed.

Lemma qualifying_relevant sensors reading :
  reading ∈ qualifying sensors -> storage_relevant reading.1 = true.
Proof.
  unfold qualifying. rewrite elem_of_flat_map.
  intros ([sensor_name sensor_list] & _ & Hin). simpl in Hin.
  destruct (storage_relevant sensor_name) eqn:Hr; [|by apply elem_of_nil in Hin].
  apply list_elem_of_fmap in Hin as (sensor & -> & _). done.
Qed.

Lemma storage_readings_relevant w reading :
  reading ∈ storage_readings w -> storage_relevant reading.1 = true.
Proof.
  unfold storage_readings.
  destruct (psutil_sensors_temperatures w); [apply qualifying_relevant|].
  by intros Hin%elem_of_nil.
Qed.

Lemma temperature_alerts_readings self w :
  temperature_alerts self w = flat_map (temperature_alerts_of self) (storage_readings w).
Proof.
  unfold temperature_alerts, storage_readings.
  by destruct (psutil_sensors_temperatures w).
Qed.

Lemma usage_alerts_justified self w devices a :
  a ∈ usage_alerts self w <-> of_category Usage a ∧ justified self w devices a.
Proof.
  unfold usage_alerts. rewrite elem_of_flat_map. split.
  - intros (partition & Hin & Ha). unfold usage_alerts_of in Ha.
    destruct (psutil_disk_usage w _) as [usage|e] eqn:Hu; [|by apply elem_of_nil in Ha].
    destruct (truediv _ _) as [ratio|e] eqn:Hd; [|by apply elem_of_nil in Ha].
    simpl in Ha.
    destruct (float_gt_int _ _) eqn:Hgt; [|by apply elem_of_nil in Ha].
    apply list_elem_of_singleton in Ha as ->. split; [done|]. simpl. split_and!.
    + done.
    + by apply float_gt_int_exceeds.
    + by exists partition, usage, ratio.
  - intros [Hc Ha]. destruct a as [device p threshold| |]; try discriminate Hc.
    destruct Ha as (-> & Hgt & partition & usage & ratio & Hin & <- & Hu & Hd & ->).
    exists partition. split; [done|]. unfold usage_alerts_of. rewrite Hu, Hd. cbv zeta.
    apply float_gt_int_exceeds in Hgt. rewrite Hgt. by left.
Qed.

Lemma temperature_alerts_justified self w devices a :
  a ∈ temperature_alerts self w <-> of_category Temperature a ∧ justified self w devices a.
Proof.
  rewrite temperature_alerts_readings, elem_of_flat_map. split.
  - intros (reading & Hin & Ha). unfold temperature_alerts_of in Ha.
    destruct (float_gt_int _ _) eqn:Hgt; [|by apply elem_of_nil in Ha].
    apply list_elem_of_singleton in Ha as ->. split; [done|]. simpl. split_and!.
    + done.
    + by apply float_gt_int_exceeds.
    + by eapply storage_readings_relevant.
    + by exists reading.
  - intros [Hc Ha]. destruct a as [|sensor_name temp threshold|]; try discriminate Hc.
    destruct Ha as (-> & Hgt & _ & reading & Hin & <- & <-).
    exists reading. split; [done|]. unfold temperature_alerts_of.
    apply float_gt_int_exceeds in Hgt. rewrite Hgt. by left.
Qed.

Lemma smart_alerts_justified self w devices a :
  a ∈ smart_alerts w devices <-> of_category Smart a ∧ justified self w devices a.
Proof.
  unfold smart_alerts. rewrite elem_of_flat_map. split.
  - intros (device & Hin & Ha). unfold smart_alerts_of in Ha.
    destruct (device_path_of device) as [drive_path|e] eqn:Hp; [|by apply elem_of_nil in Ha].
    unfold smart_alerts_of_path in Ha.
    destruct (subprocess_run w _) as [result|e] eqn:Hr; [|by apply elem_of_nil in Ha].
    destruct (subprocess.returncode result =? 0) eqn:Hc; [|by apply elem_of_nil in Ha].
    destruct (json_loads w _) as [payload|e] eqn:Hl; [|by apply elem_of_nil in Ha].
    destruct (verdict payload) as [[|]|] eqn:Hv; try by apply elem_of_nil in Ha.
    apply list_elem_of_singleton in Ha as ->. split; [done|].
    exists device, result, payload. split_and!; try done. by apply Z.eqb_eq.
  - intros [Hc Ha]. destruct a as [| |drive_path]; try discriminate Hc.
    destruct Ha as (device & result & payload & Hin & Hp & Hr & Hrc & Hl & Hv).
    exists device. split; [done|]. unfold smart_alerts_of, smart_alerts_of_path.
    rewrite Hp, Hr, Hrc, Hl, Hv. by left.
Qed.

(** The alerts of a run are the justified ones. *)
Lemma run_alerts_justified self w devices a :
  a ∈ usage_alerts self w ++ temperature_alerts self w ++ smart_alerts w devices
  <-> justified self w devices a.
Proof.
  rewrite !elem_of_app, (usage_alerts_justified self w devices),
    (temperature_alerts_justified self w devices), (smart_alerts_justified self w devices).
  unfold of_category. destruct a; simpl; intuition congruence.
Qed.

(** X8.  No alert without a cause, and no cause without an alert.  The
    alerts a run appends are exactly the justified ones: a usage alert for
    a partition of the host whose usage percentage, as computed from the
    byte counts, is strictly above the monitor's usage threshold; a
    temperature alert for a reading of a group that passes the keyword
    filter and is strictly above the temperature threshold; a SMART alert
    for the drive path of a device of [disk_usage] for which the utility
    exited with code zero and printed a payload that says "failed". *)
Theorem alerts_are_the_justified_ones (self : SSDHealthMonitor) (w : world) h r h' :
  allocated h (alerts self) ->
  run_full_check self w h = (Returned r, h') ->
  ∃ new,
    read h' (alerts self) = read h (alerts self) ++ new ∧
    ∀ a, a ∈ new <-> justified self w (keys (HealthReport.disk_usage r)) a.
Proof.
  intros Hl Hrun.
  destruct (run_full_check_alerts _ _ _ _ _ Hl Hrun) as (Hread & _).
  eexists. split; [exact Hread|]. apply run_alerts_justified.
Qed.

Lemma alerts_are_the_justified_ones_witness :
  ∃ r h',
    run_full_check Sample.monitor Sample.failing_host Sample.fresh = (Returned r, h') ∧
    ∃ new,
      read h' (alerts Sample.monitor) = read Sample.fresh (alerts Sample.monitor) ++ new ∧
      ∀ a, a ∈ new <-> justified Sample.monitor Sample.failing_host
                         (keys (HealthReport.disk_usage r)) a.
Proof.
  eexists _, _. split; [vm_compute; reflexivity|].
  apply (alerts_are_the_justified_ones Sample.monitor Sample.failing_host Sample.fresh).
  - unfold allocated. simpl. lia.
  - reflexivity.
Defined.

(** X9.  A monitor that has no alerts yet reports a host as healthy exactly
    when nothing on the host justifies an alert. *)
Theorem healthy_iff_nothing_justified (self : SSDHealthMonitor) (w : world) h r h' :
  allocated h (alerts self) ->
  read h (alerts self) = [] ->
  run_full_check self w h = (Returned r, h') ->
  HealthReport.healthy r = true
  <-> ∀ a, ¬ justified self w (keys (HealthReport.disk_usage r)) a.
Proof.
  intros Hl Hnil Hrun.
  destruct (run_full_check_report _ _ _ _ _ Hrun) as [_ ->].
  destruct (run_full_check_alerts _ _ _ _ _ Hl Hrun) as (-> & _).
  rewrite Hnil, app_nil_l, length_eqb_nil. split.
  - intros Hnone a Ha. apply run_alerts_justified in Ha.
    rewrite Hnone in Ha. by apply elem_of_nil in Ha.
  - intros Hnone.
    destruct (_ ++ _ ++ _) as [|a new] eqn:E; [done|].
    destruct (Hnone a). apply run_alerts_justified. rewrite E. by left.
Qed.

Lemma healthy_iff_nothing_justified_witness :
  ∃ r h',
    run_full_check Sample.monitor Sample.healthy_host Sample.fresh = (Returned r, h') ∧
    HealthReport.healthy r = true ∧
    ∀ a, ¬ justified Sample.monitor Sample.healthy_host
             (keys (HealthReport.disk_usage r)) a.
Proof.
  eexists _, _. split; [vm_compute; reflexivity|]. split; [reflexivity|].
  apply (healthy_iff_nothing_justified Sample.monitor Sample.healthy_host Sample.fresh
           _ _ ltac:(unfold allocated; simpl; lia) eq_refl eq_refl).
  reflexivity.
Defined.

(** ** Several monitors, several runs *)

(** X10.  Monitors do not share their alerts.  Two monitors built one after
    the other own different lists, and whatever either of them does in a
    run, returning or raising, leaves the list of the other as it was. *)
Theorem monitors_do_not_share_alerts (temp1 usage1 temp2 usage2 : Z) (w : world)
    (h : store alert) (first second : SSDHealthMonitor) h1 h2 :
  __init__ temp1 usage1 h = (Returned first, h1) ->
  __init__ temp2 usage2 h1 = (Returned second, h2) ->
  alerts first ≠ alerts second ∧
  read h2 (alerts first) = [] ∧ read h2 (alerts second) = [] ∧
  read (run_full_check second w h2).2 (alerts first) = [] ∧
  read (run_full_check first w h2).2 (alerts second) = [].
Proof.
  intros Hfirst Hsecond.
  destruct (init_spec temp1 usage1 h) as (a & ha & Ha & _ & _ & Hnew1 & Hl1 & Hr1 & _).
  rewrite Hfirst in Ha. injection Ha as <- <-.
  destruct (init_spec temp2 usage2 h1) as (b & hb & Hb & _ & _ & Hnew2 & Hl2 & Hr2 & Hold).
  rewrite Hsecond in Hb. injection Hb as <- <-.
  destruct (Hold _ Hl1) as [_ Hkeep].
  assert (alerts first ≠ alerts second) as Hne by (intros E; by rewrite E in Hl1).
  assert (read h2 (alerts first) = []) as Hr1' by (by rewrite Hkeep).
  split_and!; try done.
  - destruct (methods_only_append second w) as (_ & _ & _ & _ & Hrun).
    destruct (Hrun h2) as [xs ->]. by rewrite read_extend_other.
  - destruct (methods_only_append first w) as (_ & _ & _ & _ & Hrun).
    destruct (Hrun h2) as [xs ->]. by rewrite read_extend_other.
Qed.

Lemma monitors_do_not_share_alerts_witness :
  ∃ first h1 second h2,
    __init__ 75 85 [] = (Returned first, h1) ∧
    __init__ 70 90 h1 = (Returned second, h2) ∧
    length (read (run_full_check second Sample.failing_host h2).2 (alerts second)) = 2%nat ∧
    read (run_full_check second Sample.failing_host h2).2 (alerts first) = [].
Proof.
  eexists _, _, _, _. split; [reflexivity|]. split; [reflexivity|].
  split; [reflexivity|].
  apply (monitors_do_not_share_alerts 75 85 70 90 Sample.failing_host [] _ _ _ _
           eq_refl eq_refl).
Defined.

(** X11.  A report keeps no copy of the alerts: its [alerts] entry is the
    monitor's list itself, while [healthy] is a value computed when the
    report is built.  After a second run of the monitor an earlier report
    therefore shows the alerts of both runs, and a report that says
    [healthy] can list alerts: the two entries agree only until the next
    run. *)
Theorem earlier_report_shows_later_alerts (self : SSDHealthMonitor) (w1 w2 : world)
    h0 r1 h1 r2 h2 :
  allocated h0 (alerts self) ->
  run_full_check self w1 h0 = (Returned r1, h1) ->
  run_full_check self w2 h1 = (Returned r2, h2) ->
  read h2 (HealthReport.alerts r1) = read h2 (HealthReport.alerts r2) ∧
  (HealthReport.healthy r1 = true -> HealthReport.healthy r2 = false ->
   read h1 (HealthReport.alerts r1) = [] ∧ read h2 (HealthReport.alerts r1) ≠ []).
Proof.
  intros Hl Hrun1 Hrun2.
  destruct (run_full_check_report _ _ _ _ _ Hrun1) as [-> Hh1].
  destruct (run_full_check_report _ _ _ _ _ Hrun2) as [-> Hh2].
  split; [done|]. rewrite Hh1, Hh2. intros He1 He2. split.
  - by apply length_eqb_nil.
  - intros Hnil. by rewrite Hnil in He2.
Qed.

Lemma earlier_report_shows_later_alerts_witness :
  ∃ r1 h1 r2 h2,
    run_full_check Sample.monitor Sample.healthy_host Sample.fresh = (Returned r1, h1) ∧
    run_full_check Sample.monitor Sample.failing_host h1 = (Returned r2, h2) ∧
    HealthReport.healthy r1 = true ∧
    read h2 (HealthReport.alerts r1) ≠ [].
Proof.
  eexists _, _, _, _. split; [vm_compute; reflexivity|].
  split; [vm_compute; reflexivity|]. split; [reflexivity|].
  apply (earlier_report_shows_later_alerts Sample.monitor Sample.healthy_host
           Sample.failing_host Sample.fresh _ _ _ _
           ltac:(unfold allocated; simpl; lia) eq_refl eq_refl);
    reflexivity.
Defined.

(** ** The program *)


(** ** Thresholds and what a report holds *)

Lemma float_gt_int_mono x n1 n2 :
  n1 <= n2 -> float_gt_int x n2 = true -> float_gt_int x n1 = true.
Proof.
  intros Hn. destruct x as [s|s| |s m e]; simpl; try done.
  - rewrite !Z.ltb_lt. lia.
  - destruct (0 <=? e); rewrite !Z.ltb_lt; [lia|].
    pose proof (Z.pow_nonneg 2 (- e)). nia.
Qed.

Lemma length_flat_map_le {A B} (f g : A -> list B) (xs : list A) :
  (∀ x, (length (f x) <= length (g x))%nat) ->
  (length (flat_map f xs) <= length (flat_map g xs))%nat.
Proof.
  intros Hfg. induction xs as [|x xs IH]; simpl; [done|].
  rewrite !length_app. specialize (Hfg x). lia.
Qed.

Lemma for_value {A S} (body1 body2 : A -> S -> M S) (xs : list A) :
  (∀ x acc h1 h2, (body1 x acc h1).1 = (body2 x acc h2).1) ->
  ∀ acc h1 h2, (for_ xs body1 acc h1).1 = (for_ xs body2 acc h2).1.
Proof.
  intros Hbody. induction xs as [|x xs IH]; intros acc h1 h2; [done|].
  simpl. unfold bind. specialize (Hbody x acc h1 h2).
  destruct (body1 x acc h1) as [[a1|e1] h1'], (body2 x acc h2) as [[a2|e2] h2'];
    simpl in Hbody; try discriminate Hbody.
  - injection Hbody as ->. apply IH.
  - done.
Qed.

(** What the collectors return does not depend on the thresholds, nor on
    the alerts already held. *)
Lemma get_disk_usage_value self1 self2 w h1 h2 :
  (get_disk_usage self1 w h1).1 = (get_disk_usage self2 w h2).1.
Proof.
  apply for_value. intros partition acc g1 g2.
  unfold usage_of_partition, try_except, bind, lift, gigabytes, truediv, ret.
  destruct (psutil_disk_usage w _) as [usage|e]; [|by destruct e].
  destruct (psutil.total usage =? 0); [done|].
  change (1024 ^ 3 =? 0) with false. cbv iota.
  unfold check_usage, append_alert, ret.
  by destruct (float_gt_int _ (usage_threshold self1)),
       (float_gt_int _ (usage_threshold self2)).
Qed.

Lemma get_drive_temperatures_value self1 self2 w h1 h2 :
  (get_drive_temperatures self1 w h1).1 = (get_drive_temperatures self2 w h2).1.
Proof.
  unfold get_drive_temperatures, try_except, bind, lift.
  destruct (psutil_sensors_temperatures w) as [sensors|e]; [|done].
  destruct sensors as [|group sensors]; [done|].
  pose proof (for_value (temperatures_of_group self1) (temperatures_of_group self2)
                (group :: sensors)) as Hloop.
  match goal with
  | |- (match ?m1 with _ => _ end).1 = (match ?m2 with _ => _ end).1 =>
      assert (m1.1 = m2.1) as Hfst;
      [|destruct m1 as [[]], m2 as [[]]; simpl in *; congruence]
  end.
  apply Hloop. intros [sensor_name sensor_list] acc g1 g2. unfold temperatures_of_group.
  destruct (storage_relevant sensor_name); [|done].
  apply for_value. intros sensor acc' g1' g2'.
  unfold temperature_of_sensor, check_temperature, append_alert, bind, ret.
  by destruct (float_gt_int _ (temp_threshold self1)),
       (float_gt_int _ (temp_threshold self2)).
Qed.

Lemma smart_loop_value self1 self2 w devices acc h1 h2 :
  (for_ devices (smart_of_device self1 w) acc h1).1
  = (for_ devices (smart_of_device self2 w) acc h2).1.
Proof.
  apply for_value. intros device acc' g1 g2.
  unfold smart_of_device, check_smart_data, check_smart_status, try_except, bind, lift,
    append_alert, ret.
  destruct (device_path_of device) as [path|e]; [|done].
  destruct (subprocess_run w _) as [result|e]; [|by destruct e].
  destruct (subprocess.returncode result =? 0); [|done].
  destruct (json_loads w _) as [payload|e]; [|by destruct e].
  destruct (json_in _ payload) as [[|]|e]; [| done | by destruct e].
  destruct (json_getitem payload _) as [smart_status|e]; [|by destruct e].
  destruct (json_getitem smart_status _) as [health_status|e]; [|by destruct e].
  by destruct (truthy health_status).
Qed.

(** X13.  The thresholds decide about alerts and about nothing else.  Two
    monitors that differ only in their thresholds report the same
    [disk_usage], [temperatures] and [smart_data] for a host, and the one
    with the higher thresholds raises at most as many alerts: a host that
    is healthy for the stricter monitor is healthy for the laxer one. *)
Theorem laxer_thresholds_fewer_alerts (strict lax : SSDHealthMonitor) (w : world)
    h r1 h1 r2 h2 :
  alerts strict = alerts lax ->
  allocated h (alerts strict) ->
  usage_threshold strict <= usage_threshold lax ->
  temp_threshold strict <= temp_threshold lax ->
  run_full_check strict w h = (Returned r1, h1) ->
  run_full_check lax w h = (Returned r2, h2) ->
  HealthReport.disk_usage r2 = HealthReport.disk_usage r1 ∧
  HealthReport.temperatures r2 = HealthReport.temperatures r1 ∧
  HealthReport.smart_data r2 = HealthReport.smart_data r1 ∧
  (length (read h2 (alerts lax)) <= length (read h1 (alerts strict)))%nat ∧
  (HealthReport.healthy r1 = true -> HealthReport.healthy r2 = true).
Proof.
  intros Hsame Hl Husage Htemp Hrun1 Hrun2.
  assert (allocated h (alerts lax)) as Hl' by (by rewrite <- Hsame).
  destruct (run_full_check_appends _ _ _ _ _ Hl Hrun1)
    as (us1 & ts1 & ss1 & Hu1 & Ht1 & Hs1 & _).
  destruct (run_full_check_appends _ _ _ _ _ Hl' Hrun2)
    as (us2 & ts2 & ss2 & Hu2 & Ht2 & Hs2 & _).
  assert (HealthReport.disk_usage r2 = HealthReport.disk_usage r1) as Hdisk.
  { pose proof (get_disk_usage_value strict lax w h h) as Hv.
    rewrite Hu1, Hu2 in Hv. simpl in Hv. congruence. }
  assert (HealthReport.temperatures r2 = HealthReport.temperatures r1) as Htemps.
  { pose proof (get_drive_temperatures_value strict lax w h h) as Hv.
    rewrite Ht1, Ht2 in Hv. simpl in Hv. congruence. }
  assert (HealthReport.smart_data r2 = HealthReport.smart_data r1) as Hsmart.
  { pose proof (smart_loop_value strict lax w (keys (HealthReport.disk_usage r1)) [] h h)
      as Hv.
    rewrite <- Hdisk in Hv at 2. rewrite Hs1, Hs2 in Hv. simpl in Hv. congruence. }
  assert (length (read h2 (alerts lax)) <= length (read h1 (alerts strict)))%nat as Hlen.
  { destruct (run_full_check_alerts _ _ _ _ _ Hl Hrun1) as (-> & _).
    destruct (run_full_check_alerts _ _ _ _ _ Hl' Hrun2) as (-> & _).
    rewrite Hdisk, <- Hsame, !length_app.
    assert (length (usage_alerts lax w) <= length (usage_alerts strict w))%nat.
    { apply length_flat_map_le. intros partition. unfold usage_alerts_of.
      destruct (psutil_disk_usage w _) as [usage|]; [|done].
      destruct (truediv _ _) as [ratio|]; [|done]. cbv zeta.
      destruct (float_gt_int _ (usage_threshold lax)) eqn:Hgt; [|simpl; lia].
      by rewrite (float_gt_int_mono _ _ _ Husage Hgt). }
    assert (length (temperature_alerts lax w) <= length (temperature_alerts strict w))%nat.
    { unfold temperature_alerts. destruct (psutil_sensors_temperatures w); [|done].
      apply length_flat_map_le. intros reading. unfold temperature_alerts_of.
      destruct (float_gt_int _ (temp_threshold lax)) eqn:Hgt; [|simpl; lia].
      by rewrite (float_gt_int_mono _ _ _ Htemp Hgt). }
    lia. }
  split_and!; try done.
  destruct (run_full_check_report _ _ _ _ _ Hrun1) as [_ ->].
  destruct (run_full_check_report _ _ _ _ _ Hrun2) as [_ ->].
  rewrite !Nat.eqb_eq. lia.
Qed.

Lemma laxer_thresholds_fewer_alerts_witness :
  ∃ r1 h1 r2 h2,
    run_full_check Sample.monitor Sample.failing_host Sample.fresh = (Returned r1, h1) ∧
    run_full_check {| temp_threshold := 90; usage_threshold := 95; alerts := 0 |}
      Sample.failing_host Sample.fresh = (Returned r2, h2) ∧
    length (read h1 0%nat) = 4%nat ∧ length (read h2 0%nat) = 1%nat ∧
    HealthReport.disk_usage r2 = HealthReport.disk_usage r1.
Proof.
  eexists _, _, _, _. split; [vm_compute; reflexivity|].
  split; [vm_compute; reflexivity|]. split; [reflexivity|]. split; [reflexivity|].
  apply (laxer_thresholds_fewer_alerts Sample.monitor
           {| temp_threshold := 90; usage_threshold := 95; alerts := 0 |}
           Sample.failing_host Sample.fresh _ _ _ _
           eq_refl ltac:(unfold allocated; simpl; lia)
           ltac:(simpl; lia) ltac:(simpl; lia) eq_refl eq_refl).
Defined.
